(** * Release manager: conventional-commit classifier, changelog generator
      and release-type detection

    Shallow embedding of [scripts/generate-changelog.js] (class
    [ChangelogGenerator]) and of the auto-detect block of
    [scripts/prepare-release.sh], followed by the properties of the
    specification that concern them. *)

From Stdlib Require Import List NArith String Ascii Bool Lia Permutation.
From Stdlib Require Import Numbers.DecimalString.
Import ListNotations.

(** ** JavaScript strings

    A JavaScript string is a sequence of UTF-16 code units.  Literals of the
    source are written [str "..."]; every literal of the two scripts is
    ASCII apart from the check mark of the final log line. *)

Module JS.

Definition char := N.
Definition jsstring := list char.

Definition chr (a : ascii) : char := N_of_ascii a.
Definition str (s : string) : jsstring := map chr (list_ascii_of_string s).

Arguments chr a%_char.
Arguments str s%_string.

Definition nl : jsstring := [10%N].

(** The empty string. *)
Definition empty : jsstring := [].

Definition char_eqb (a b : char) : bool := N.eqb a b.

Fixpoint eqb (a b : jsstring) : bool :=
  match a, b with
  | [], [] => true
  | x :: a', y :: b' => char_eqb x y && eqb a' b'
  | _, _ => false
  end.

(** [WhiteSpace] and [LineTerminator] of ECMAScript: the characters matched
    by [\s] and removed by [String.prototype.trim]. *)
Definition isWhiteSpace (c : char) : bool :=
  ((9 <=? c) && (c <=? 13) || (c =? 32) || (c =? 160) || (c =? 5760)
   || (8192 <=? c) && (c <=? 8202) || (c =? 8232) || (c =? 8233)
   || (c =? 8239) || (c =? 8287) || (c =? 12288) || (c =? 65279))%N.

Fixpoint dropWhile (p : char -> bool) (s : jsstring) : jsstring :=
  match s with
  | c :: s' => if p c then dropWhile p s' else s
  | [] => []
  end.

Fixpoint takeWhile (p : char -> bool) (s : jsstring) : jsstring :=
  match s with
  | c :: s' => if p c then c :: takeWhile p s' else []
  | [] => []
  end.

(** [s.trim()] *)
Definition trim (s : jsstring) : jsstring :=
  rev (dropWhile isWhiteSpace (rev (dropWhile isWhiteSpace s))).

(** [s.startsWith(p)] *)
Fixpoint startsWith (p s : jsstring) : bool :=
  match p, s with
  | [], _ => true
  | x :: p', y :: s' => char_eqb x y && startsWith p' s'
  | _ :: _, [] => false
  end.

(** [s.includes(needle)] *)
Fixpoint includes (needle s : jsstring) : bool :=
  startsWith needle s ||
  match s with
  | [] => false
  | _ :: s' => includes needle s'
  end.

(** [s.substring(0, n)] *)
Definition substring0 (n : nat) (s : jsstring) : jsstring := firstn n s.

(** [s.split(sep)] for a one-character separator. *)
Fixpoint split (sep : char) (s : jsstring) : list jsstring :=
  match s with
  | [] => [[]]
  | c :: s' =>
      if char_eqb c sep then [] :: split sep s'
      else match split sep s' with
           | h :: r => (c :: h) :: r
           | [] => [[c]]
           end
  end.

(** [xs.join(sep)] *)
Fixpoint join (sep : jsstring) (xs : list jsstring) : jsstring :=
  match xs with
  | [] => []
  | [x] => x
  | x :: r => x ++ sep ++ join sep r
  end.

(** [String(n)] for a non-negative integer. *)
Definition ofNat (n : nat) : jsstring :=
  str (NilEmpty.string_of_uint (Nat.to_uint n)).

(** [s.padStart(n, '0')] *)
Definition padStart0 (n : nat) (s : jsstring) : jsstring :=
  repeat (chr "0") (n - List.length s) ++ s.

(** Values that a version can take: a string, or [undefined]. *)
Inductive value :=
| undefined
| vstr (s : jsstring).

(** Truthiness: [undefined] and the empty string are falsy. *)
Definition truthy (v : value) : bool :=
  match v with
  | undefined => false
  | vstr [] => false
  | vstr (_ :: _) => true
  end.

(** String conversion inside a template literal. *)
Definition toString (v : value) : jsstring :=
  match v with
  | undefined => str "undefined"
  | vstr s => s
  end.

End JS.

Import JS.

(** ** Regular expressions

    The fragment used by the scripts: literals, character classes, sequence,
    alternation, greedy [*] and [+] over a character class, and capturing
    groups.  Matching is by backtracking, anchored at the start of the
    input (every pattern of the scripts begins with [^] and none has the
    [m], [g] or [y] flag). *)

Module Regex.

Inductive re :=
| Eps
| Chr (c : char)
| Cls (p : char -> bool)
| Seq (r1 r2 : re)
| Alt (r1 r2 : re)
| Star (p : char -> bool)
| Plus (p : char -> bool)
| Grp (r : re).

(** Greedy iteration of a class with backtracking: the longest run first,
    then shorter ones. *)
Fixpoint greedy {R} (p : char -> bool) (s : jsstring)
    (k : jsstring -> option R) : option R :=
  match s with
  | c :: s' =>
      if p c then
        match greedy p s' k with
        | Some r => Some r
        | None => k s
        end
      else k s
  | [] => k []
  end.

Fixpoint run {R} (r : re) (s : jsstring) (caps : list jsstring)
    (k : jsstring -> list jsstring -> option R) : option R :=
  match r with
  | Eps => k s caps
  | Chr c =>
      match s with
      | x :: s' => if char_eqb x c then k s' caps else None
      | [] => None
      end
  | Cls p =>
      match s with
      | x :: s' => if p x then k s' caps else None
      | [] => None
      end
  | Seq r1 r2 => run r1 s caps (fun s1 caps1 => run r2 s1 caps1 k)
  | Alt r1 r2 =>
      match run r1 s caps k with
      | Some x => Some x
      | None => run r2 s caps k
      end
  | Star p => greedy p s (fun s' => k s' caps)
  | Plus p =>
      match s with
      | x :: s' => if p x then greedy p s' (fun s'' => k s'' caps) else None
      | [] => None
      end
  | Grp r1 =>
      run r1 s caps
        (fun s' caps' => k s' (caps' ++ [firstn (List.length s - List.length s') s]))
  end.

(** Result of a successful match: the matched text and the captures. *)
Definition exec (r : re) (s : jsstring) : option (jsstring * list jsstring) :=
  run r s [] (fun rest caps => Some (firstn (List.length s - List.length rest) s, caps)).

(** [s.replace(r, '')] for an anchored pattern without the [g] flag. *)
Definition replace_empty (r : re) (s : jsstring) : jsstring :=
  match exec r s with
  | Some (m, _) => skipn (List.length m) s
  | None => s
  end.

(** A literal word. *)
Fixpoint word (w : jsstring) : re :=
  match w with
  | [] => Eps
  | c :: w' => Seq (Chr c) (word w')
  end.

Definition lit (s : string) : re := word (str s).

Arguments lit s%_string.

(** [[^c]] *)
Definition notc (a : ascii) : char -> bool :=
  fun x => negb (char_eqb x (chr a)).

Arguments notc a%_char.

(** [.] on one line of text *)
Definition anychar : char -> bool := fun _ => true.

End Regex.

Import Regex.

(** ** The commit classifier of [generate-changelog.js] *)

(** [/^(feat|fix|docs|style|refactor|perf|test|chore|ci|revert)/] *)
Definition type_re : re :=
  Grp (Alt (lit "feat") (Alt (lit "fix") (Alt (lit "docs") (Alt (lit "style")
      (Alt (lit "refactor") (Alt (lit "perf") (Alt (lit "test")
      (Alt (lit "chore") (Alt (lit "ci") (lit "revert")))))))))).

(** [/^[^(]+\(([^)]+)\)/] *)
Definition scope_re : re :=
  Seq (Plus (notc "(")) (Seq (Chr (chr "("))
    (Seq (Grp (Plus (notc ")"))) (Chr (chr ")")))).

(** [/^[^:]+:\s*/] *)
Definition message_re : re :=
  Seq (Plus (notc ":")) (Seq (Chr (chr ":")) (Star isWhiteSpace)).

Definition getCommitType (subject : jsstring) : jsstring :=
  match exec type_re subject with
  | Some (_, t :: _) => t
  | _ => str "other"
  end.

Definition getCommitScope (subject : jsstring) : jsstring :=
  match exec scope_re subject with
  | Some (_, sc :: _) => sc
  | _ => empty
  end.

Definition getCommitMessage (subject : jsstring) : jsstring :=
  replace_empty message_re subject.

(** The object built for each commit by [getCommitsSinceLastTag]. *)
Record Commit := mkCommit {
  hash : jsstring;
  subject : jsstring;
  body : jsstring;
  type : jsstring;
  scope : jsstring;
  message : jsstring;
  breaking : bool
}.

(** The callback of [output.split('\n').map(...)], on the three parts bound
    by [const [hash, subject, body] = line.split('|')]. *)
Definition classify (h s b : jsstring) : Commit :=
  {| hash := substring0 7 h;
     subject := trim s;
     body := match b with [] => empty | _ => trim b end;
     type := getCommitType s;
     scope := getCommitScope s;
     message := getCommitMessage s;
     breaking := includes (str "BREAKING CHANGE") b |}.

(** ** Exceptions

    Code that can throw returns a [Result]; [Throw] carries the message of
    the error object. *)

Inductive Result (A : Type) :=
| Ok (a : A)
| Throw (msg : jsstring).

Arguments Ok {A} a.
Arguments Throw {A} msg.

Definition bind {A B} (m : Result A) (f : A -> Result B) : Result B :=
  match m with
  | Ok a => f a
  | Throw e => Throw e
  end.

Notation "x <- m ;; k" := (bind m (fun x => k))
  (at level 61, m at next level, right associativity).

(** [try { body } catch (error) { handler }] *)
Definition try_catch {A} (body : Result A) (handler : jsstring -> Result A)
    : Result A :=
  match body with
  | Ok a => Ok a
  | Throw e => handler e
  end.

Fixpoint mapM {A B} (f : A -> Result B) (xs : list A) : Result (list B) :=
  match xs with
  | [] => Ok []
  | x :: r => y <- f x ;; ys <- mapM f r ;; Ok (y :: ys)
  end.

(** One line of the log.  A line with fewer than three [|]-separated parts
    leaves [subject] or [body] undefined; the callback then throws a
    [TypeError] at [subject.trim()], or at [body.includes(...)] when only
    [body] is undefined (the message is the one Node prints). *)
Definition parseLine (line : jsstring) : Result Commit :=
  match split (chr "|") line with
  | h :: s :: b :: _ => Ok (classify h s b)
  | [_; _] =>
      Throw (str "Cannot read properties of undefined (reading 'includes')")
  | _ => Throw (str "Cannot read properties of undefined (reading 'trim')")
  end.

(** ** Console and file system *)

Inductive Color := reset | green | yellow | blue | red.

Definition esc : jsstring := [27%N].

Definition colors (c : Color) : jsstring :=
  match c with
  | reset => esc ++ str "[0m"
  | green => esc ++ str "[32m"
  | yellow => esc ++ str "[33m"
  | blue => esc ++ str "[34m"
  | red => esc ++ str "[31m"
  end.

(** The world a run acts on: the files by path, the lines printed, the
    record of the writes performed (path and content, oldest first), the
    paths that cannot be opened for writing (a directory, a file without
    permission), each with the error that [fs.writeFileSync] throws for
    it, and the uncaught exception that ended the run, if any. *)
Record World := mkWorld {
  files : jsstring -> option jsstring;
  console : list jsstring;
  writes : list (jsstring * jsstring);
  unwritable : jsstring -> option jsstring;
  crashed : option jsstring
}.

Definition console_log (line : jsstring) (w : World) : World :=
  {| files := files w; console := console w ++ [line]; writes := writes w;
     unwritable := unwritable w; crashed := crashed w |}.

(** An exception that nothing catches. *)
Definition uncaught (e : jsstring) (w : World) : World :=
  {| files := files w; console := console w; writes := writes w;
     unwritable := unwritable w; crashed := Some e |}.

Definition log (message : jsstring) (color : Color) (w : World) : World :=
  console_log (colors color ++ message ++ colors reset) w.

(** [fs.readFileSync(path, 'utf8')] *)
Definition readFileSync (path : jsstring) (w : World) : Result jsstring :=
  match files w path with
  | Some content => Ok content
  | None => Throw (str "ENOENT: no such file or directory")
  end.

(** [fs.writeFileSync(path, content, 'utf8')].  It throws when the path
    cannot be opened for writing, and nothing is written then; no caller
    in the script catches that exception. *)
Definition writeFileSync (path content : jsstring) (w : World) : World :=
  match unwritable w path with
  | Some e => uncaught e w
  | None =>
      {| files := fun p => if JS.eqb p path then Some content else files w p;
         console := console w;
         writes := writes w ++ [(path, content)];
         unwritable := unwritable w;
         crashed := crashed w |}
  end.

(** [getCommitsSinceLastTag], on the outcome of the two [execSync] calls:
    the text printed by [git log], or the error thrown.  Every exception of
    the body is caught, reported as a warning, and gives [[]]. *)
Definition getCommitsSinceLastTag (gitlog : Result jsstring) (w : World)
    : list Commit * World :=
  match (raw <- gitlog ;;
         let output := trim raw in
         match output with
         | [] => Ok []
         | _ => mapM parseLine (split 10%N output)
         end) with
  | Ok commits => (commits, w)
  | Throw e =>
      ([], log (str "Warning: Could not get commits: " ++ e) yellow w)
  end.

(** ** Grouping and rendering *)

(** The [groups] object: its keys in insertion order with their arrays. *)
Definition Groups := list (jsstring * list Commit).

Definition empty_groups : Groups :=
  [ (str "Breaking Changes", []);
    (str "Features", []);
    (str "Bug Fixes", []);
    (str "Performance", []);
    (str "Documentation", []);
    (str "Other", []) ].

(** [groups[key].push(commit)] *)
Definition push (key : jsstring) (commit : Commit) (groups : Groups) : Groups :=
  map (fun kv => if JS.eqb (fst kv) key then (fst kv, snd kv ++ [commit]) else kv)
      groups.

(** The key selected by the [if]/[else if] chain of [groupCommits]. *)
Definition bucket (commit : Commit) : jsstring :=
  if breaking commit then str "Breaking Changes"
  else if JS.eqb (type commit) (str "feat") then str "Features"
  else if JS.eqb (type commit) (str "fix") then str "Bug Fixes"
  else if JS.eqb (type commit) (str "perf") then str "Performance"
  else if JS.eqb (type commit) (str "docs") then str "Documentation"
  else str "Other".

(** The object after [commits.forEach(...)]. *)
Definition fillGroups (commits : list Commit) : Groups :=
  fold_left (fun groups commit => push (bucket commit) commit groups)
            commits empty_groups.

Definition groupCommits (commits : list Commit) : Groups :=
  filter (fun kv => Nat.ltb 0 (List.length (snd kv))) (fillGroups commits).

Definition formatCommit (commit : Commit) : jsstring :=
  let scope := match scope commit with
               | [] => empty
               | _ => str " **" ++ scope commit ++ str "**:"
               end in
  let link := str " ([" ++ hash commit ++ str "](../../commit/"
              ++ hash commit ++ str "))" in
  str "- " ++ message commit ++ scope ++ link.

Definition generateEntries (commits : list Commit) : jsstring :=
  match commits with
  | [] => empty
  | _ =>
      fold_left
        (fun entries kv =>
           let entries := entries ++ str "### " ++ fst kv ++ nl ++ nl in
           let entries :=
             fold_left (fun entries commit => entries ++ formatCommit commit ++ nl)
                       (snd kv) entries in
           entries ++ nl)
        (groupCommits commits) empty
  end.

(** The calendar fields read from [new Date()]. *)
Record Date := mkDate {
  getFullYear : nat;
  getMonth : nat;
  getDate_ : nat
}.

Definition getDate (now : Date) : jsstring :=
  let year := ofNat (getFullYear now) in
  let month := padStart0 2 (ofNat (getMonth now + 1)) in
  let day := padStart0 2 (ofNat (getDate_ now)) in
  year ++ str "-" ++ month ++ str "-" ++ day.

(** The fields of a [ChangelogGenerator]. *)
Record Generator := mkGenerator {
  dryRun : bool;
  version : value;
  changelogPath : jsstring
}.

Definition generateReleaseSection (this : Generator) (now : Date)
    (entries : jsstring) : jsstring :=
  match trim entries with
  | [] => empty
  | _ =>
      let date := getDate now in
      str "## [" ++ toString (version this) ++ str "] - " ++ date
        ++ nl ++ nl ++ entries ++ nl
  end.

Definition readExistingChangelog (this : Generator) (w : World) : jsstring :=
  match readFileSync (changelogPath this) w with
  | Ok content => content
  | Throw _ => empty
  end.

Definition writeChangelog (this : Generator) (content : jsstring) (w : World)
    : World :=
  if dryRun this then
    console_log content (log (str "DRY RUN: Would write to CHANGELOG.md:") yellow w)
  else writeFileSync (changelogPath this) content w.

(** The text assembled by [generate] from the release section and the
    existing changelog ([newContent]). *)
Definition combine (releaseSection existingChangelog : jsstring) : jsstring :=
  let header := if startsWith (str "# Changelog") existingChangelog
                then empty
                else str "# Changelog" ++ nl ++ nl in
  header ++ releaseSection ++ existingChangelog.

Definition check_mark : jsstring := [10003%N].

(** [generate].  Nothing catches the exception of a failing write: the
    run stops there, before the closing message, and the world records the
    exception in [crashed]. *)
Definition generate (this : Generator) (gitlog : Result jsstring) (now : Date)
    (w : World) : World :=
  let w := log (nl ++ str "Generating changelog for version "
                ++ toString (version this) ++ str "...") blue w in
  let w := log (str "Fetching commits...") blue w in
  let (commits, w) := getCommitsSinceLastTag gitlog w in
  match commits with
  | [] => log (str "No commits found since last release") yellow w
  | _ =>
      let w := log (str "Found " ++ ofNat (List.length commits) ++ str " commits")
                   green w in
      let entries := generateEntries commits in
      let releaseSection := generateReleaseSection this now entries in
      let existingChangelog := readExistingChangelog this w in
      let newContent := combine releaseSection existingChangelog in
      let w := writeChangelog this newContent w in
      match crashed w with
      | Some _ => w
      | None =>
          if dryRun this then w
          else log (check_mark ++ str " Changelog updated: "
                    ++ changelogPath this) green w
      end
  end.

(** ** Version detection and construction

    [JSON.parse] and the property access [pkg.version] are taken as given:
    both can throw (malformed text; a manifest that parses to [null]). *)

Section Manifest.

Variable Pkg : Type.
Variable JSON_parse : jsstring -> Result Pkg.
Variable get_version : Pkg -> Result value.

Definition detectVersion (w : World) : Result value :=
  try_catch
    (text <- readFileSync (str "package.json") w ;;
     pkg <- JSON_parse text ;;
     get_version pkg)
    (fun _ => Ok (vstr (str "1.0.0"))).

(** The [options] object passed to the constructor. *)
Record Options := mkOptions {
  opt_dryRun : bool;
  opt_version : value;
  opt_changelogPath : value
}.

(** [a || b] on values; [b] is evaluated only when [a] is falsy. *)
Definition or_else (a : value) (b : Result value) : Result value :=
  if truthy a then Ok a else b.

Definition new_ChangelogGenerator (options : Options) (w : World)
    : Result Generator :=
  version <- or_else (opt_version options) (detectVersion w) ;;
  path <- or_else (opt_changelogPath options) (Ok (vstr (str "CHANGELOG.md"))) ;;
  Ok {| dryRun := opt_dryRun options || false;
        version := version;
        changelogPath := toString path |}.

(** The options read from the command line by the main program. *)
Fixpoint version_arg (args : list jsstring) : value :=
  match args with
  | [] => undefined
  | a :: rest =>
      if JS.eqb a (str "--version") then
        match rest with
        | v :: _ => vstr v
        | [] => undefined
        end
      else version_arg rest
  end.

Definition main_options (args : list jsstring) : Options :=
  {| opt_dryRun := existsb (JS.eqb (str "--dry-run")) args;
     opt_version := version_arg args;
     opt_changelogPath := undefined |}.

(** The main program: it ends normally with the world it leaves, or with
    the exception that escaped it. *)
Definition main (args : list jsstring) (gitlog : Result jsstring) (now : Date)
    (w : World) : Result World :=
  generator <- new_ChangelogGenerator (main_options args) w ;;
  let w := generate generator gitlog now w in
  match crashed w with
  | Some e => Throw e
  | None => Ok w
  end.

End Manifest.

(** ** Release-type detection of [prepare-release.sh]

    [grep -q] succeeds when some line of its input matches; both patterns
    are anchored, [^.*BREAKING CHANGE] and [^.*feat].  This module takes
    each test [echo ... | grep -q ...] by what [grep] answers, which is
    what the test yields whenever [echo] ends normally; the module
    [Script] below adds the pipe between the two under [pipefail], and
    reads the history from git's own data. *)

Module Shell.

Definition breaking_pattern : re := Seq (Star anychar) (lit "BREAKING CHANGE").
Definition feat_pattern : re := Seq (Star anychar) (lit "feat").

Definition matches (pattern : re) (line : jsstring) : bool :=
  match exec pattern line with
  | Some _ => true
  | None => false
  end.

(** What [grep -q pattern] answers on the lines that
    [echo "$text"] writes. *)
Definition grep_q (pattern : re) (text : jsstring) : bool :=
  existsb (matches pattern) (split 10%N text).

(** The value of [RELEASE_TYPE] after the auto-detect block, when [echo]
    ends normally in both tests. *)
Definition auto_detect (COMMIT_HISTORY : jsstring) : jsstring :=
  if grep_q breaking_pattern COMMIT_HISTORY then str "major"
  else if grep_q feat_pattern COMMIT_HISTORY then str "minor"
  else str "patch".

Definition release_type (AUTO_DETECT : bool) (RELEASE_TYPE : jsstring)
    (COMMIT_HISTORY : jsstring) : jsstring :=
  if AUTO_DETECT then auto_detect COMMIT_HISTORY else RELEASE_TYPE.

(** One line of [git log --oneline] for a commit as the generator
    records it: abbreviated hash, a space, the subject.  The recorded
    subject is git's subject when that holds no [|] and no white space at
    its ends; [Script.summary] takes git's own subject. *)
Definition oneline (c : Commit) : jsstring := hash c ++ str " " ++ subject c.

(** What [git log --oneline] prints for a sequence of commits. *)
Definition git_log_oneline (commits : list Commit) : jsstring :=
  join nl (map oneline commits).

(** The release type detected for a sequence of commits. *)
Definition resolve (commits : list Commit) : jsstring :=
  auto_detect (git_log_oneline commits).

End Shell.

(** ** The detection as the script runs it

    The script runs under [set -o pipefail]: a test
    [echo "$COMMIT_HISTORY" | grep -q pattern] holds when [grep] finds a
    matching line and [echo] ends normally.  [echo] writes the text and a
    line break into the pipe.  When that fits the pipe, [echo] has ended
    before [grep] can leave; when it does not fit, [grep -q] may leave at
    its first match while [echo] is still writing, [echo] is then killed
    by [SIGPIPE], and the test fails although a line matches.  A [grep]
    that finds no match reads to the end, so [echo] always ends normally
    then.  Texts are counted in bytes. *)

Module Script.

(** A commit as git holds it: what [%H], [%h], [%s] and [%b] print. *)
Record GitCommit := mkGitCommit {
  full_hash : jsstring;
  short_hash : jsstring;
  git_subject : jsstring;
  git_body : jsstring
}.

(** One line of [git log --oneline]: [%h], a space, [%s]. *)
Definition summary (g : GitCommit) : jsstring :=
  short_hash g ++ str " " ++ git_subject g.

(** The value of [COMMIT_HISTORY]: the lines of [git log --oneline]; the
    command substitution drops the final line break. *)
Definition history (commits : list GitCommit) : jsstring :=
  join nl (map summary commits).

(** The record that the changelog generator builds from the hash, the
    subject and the body of the commit. *)
Definition record (g : GitCommit) : Commit :=
  classify (full_hash g) (git_subject g) (git_body g).

(** The pipes of one run: how many bytes a pipe holds, and, for each of the
    two tests, whether [echo] is killed when its text does not fit and
    [grep] leaves at a match. *)
Record Pipes := mkPipes {
  capacity : nat;
  first_echo_killed : bool;
  second_echo_killed : bool
}.

(** The text and the line break that [echo] adds fit the pipe. *)
Definition fits (p : Pipes) (text : jsstring) : bool :=
  Nat.leb (List.length text + 1) (capacity p).

(** [echo "$text" | grep -q pattern] under [pipefail]. *)
Definition pipe_test (fitting killed : bool) (pattern : re) (text : jsstring)
    : bool :=
  Shell.grep_q pattern text && (fitting || negb killed).

(** The value of [RELEASE_TYPE] after the auto-detect block. *)
Definition auto_detect_in (p : Pipes) (COMMIT_HISTORY : jsstring) : jsstring :=
  if pipe_test (fits p COMMIT_HISTORY) (first_echo_killed p)
               Shell.breaking_pattern COMMIT_HISTORY
  then str "major"
  else if pipe_test (fits p COMMIT_HISTORY) (second_echo_killed p)
                    Shell.feat_pattern COMMIT_HISTORY
  then str "minor"
  else str "patch".

(** The release type detected for a sequence of commits. *)
Definition detect (p : Pipes) (commits : list GitCommit) : jsstring :=
  auto_detect_in p (history commits).

End Script.

(** ** Functions and data used to state the properties *)

(** The ten recognised type words, in the order of the alternation. *)
Definition type_words : list jsstring :=
  [ str "feat"; str "fix"; str "docs"; str "style"; str "refactor";
    str "perf"; str "test"; str "chore"; str "ci"; str "revert" ].

(** The scope pattern, read off the subject: a non-empty run without [(],
    the [(], a non-empty run without [)], and the [)]. *)
Definition scope_of (s : jsstring) : option jsstring :=
  match takeWhile (notc "(") s, dropWhile (notc "(") s with
  | _ :: _, _ :: r =>
      match takeWhile (notc ")") r, dropWhile (notc ")") r with
      | sc, _ :: _ => match sc with [] => None | _ => Some sc end
      | _, [] => None
      end
  | _, _ => None
  end.

(** The description pattern, read off the subject: a non-empty run without
    [:], the [:], and the white space after it are removed. *)
Definition message_of (s : jsstring) : jsstring :=
  match takeWhile (notc ":") s, dropWhile (notc ":") s with
  | _ :: _, _ :: r => dropWhile isWhiteSpace r
  | _, _ => s
  end.

(** Sample commits, as the classifier builds them. *)
Definition feat_blank : Commit :=
  classify (str "abc1234") (str "feat: ") empty.

Definition random_scoped : Commit :=
  classify (str "abc1234") (str "random(x): do it") empty.

Definition url_subject : Commit :=
  classify (str "abc1234") (str "URL: http://x") empty.

Definition plain_subject : Commit :=
  classify (str "abc1234") (str "update readme") empty.

(** The six category labels, in the order of the [groups] object. *)
Definition labels : list jsstring := map fst empty_groups.

(** The commits of a sequence that the chain sends to a given key. *)
Definition selected (key : jsstring) (commits : list Commit) : list Commit :=
  filter (fun c => JS.eqb key (bucket c)) commits.

Definition render_group (kv : jsstring * list Commit) : jsstring :=
  str "### " ++ fst kv ++ nl ++ nl
  ++ List.concat (map (fun c => formatCommit c ++ nl) (snd kv)) ++ nl.

Definition feat_auth : Commit :=
  classify (str "abc1234") (str "feat(auth): add JWT login") empty.

Definition feat_s_d : Commit :=
  classify (str "abc1234") (str "feat(s): d") empty.

Definition feat_plain : Commit :=
  classify (str "abc1234") (str "feat: add x") empty.

Definition feat_breaking : Commit :=
  classify (str "def5678") (str "feat(api): drop v1")
           (str "BREAKING CHANGE: v1 removed").

(** A generator for version 1.1.0, a date, and worlds to run it in. *)
Definition release_1_1_0 : Generator :=
  {| dryRun := false;
     version := vstr (str "1.1.0");
     changelogPath := str "CHANGELOG.md" |}.

Definition jan_15 : Date :=
  {| getFullYear := 2024; getMonth := 0; getDate_ := 15 |}.

Definition old_changelog : jsstring :=
  str "# Changelog" ++ nl ++ nl ++ str "## [1.0.0] - 2024-01-01" ++ nl ++ nl.

Definition world_with_changelog : World :=
  {| files := fun p => if JS.eqb p (str "CHANGELOG.md")
                       then Some old_changelog else None;
     console := [];
     writes := [];
     unwritable := fun _ => None;
     crashed := None |}.

Definition empty_world : World :=
  {| files := fun _ => None; console := []; writes := [];
     unwritable := fun _ => None; crashed := None |}.

(** A [JSON.parse] that rejects its input, and a manifest without a
    [version] property. *)
Definition parse_fails : jsstring -> Result unit :=
  fun _ => Throw (str "Unexpected end of JSON input").

Definition no_version : unit -> Result value := fun _ => Ok undefined.

Definition world_with_bad_manifest : World :=
  {| files := fun p => if JS.eqb p (str "package.json")
                       then Some (str "{ version: ") else None;
     console := [];
     writes := [];
     unwritable := fun _ => None;
     crashed := None |}.

Import Shell.

Definition is_some {A} (o : option A) : bool :=
  match o with
  | Some _ => true
  | None => false
  end.

Definition refactor_breaking : Commit :=
  classify (str "abc1234") (str "refactor: cleanup")
           (str "BREAKING CHANGE: removed foo()").

(** ** Argument parsing of [prepare-release.sh]

    The [while]/[case] loop over the positional parameters.  The script
    runs under [set -u]: [--type] as the last word makes ["$2"] unbound and
    the shell stops; any other word than [--auto] and [--type] prints
    [Unknown option] and exits. *)

Module PrepareRelease.

Record Settings := mkSettings {
  AUTO_DETECT : bool;
  RELEASE_TYPE : jsstring
}.

Definition defaults : Settings :=
  {| AUTO_DETECT := false; RELEASE_TYPE := str "patch" |}.

Fixpoint parse_args (args : list jsstring) (st : Settings) : Result Settings :=
  match args with
  | [] => Ok st
  | a :: rest =>
      if JS.eqb a (str "--auto") then
        parse_args rest {| AUTO_DETECT := true; RELEASE_TYPE := RELEASE_TYPE st |}
      else if JS.eqb a (str "--type") then
        match rest with
        | v :: rest' =>
            parse_args rest' {| AUTO_DETECT := AUTO_DETECT st; RELEASE_TYPE := v |}
        | [] => Throw (str "$2: unbound variable")
        end
      else Throw (str "Unknown option: " ++ a)
  end.

End PrepareRelease.

(** ** The pattern of [validate-conventional-commits.sh]

    [PATTERN="^(feat|fix|docs|style|refactor|perf|test|chore|ci|revert)(\(.+\))?: .{1,}"],
    tested with [[[ $SUBJECT =~ $PATTERN ]]]. *)

Module Validate.

(** The end of the pattern, [: .{1,}]. *)
Definition colon_tail : re :=
  Seq (Chr (chr ":")) (Seq (Chr (chr " ")) (Plus anychar)).

Definition PATTERN : re :=
  Seq type_re
    (Seq (Alt (Grp (Seq (Chr (chr "(")) (Seq (Plus anychar) (Chr (chr ")")))))
              Eps)
      colon_tail).

Definition valid (SUBJECT : jsstring) : bool := Shell.matches PATTERN SUBJECT.

End Validate.

(** ** Further functions and data used to state the properties *)

(** Number of occurrences of a character. *)
Definition occurrences (c : char) (s : jsstring) : nat :=
  count_occ N.eq_dec s c.

(** The first character, if any, is not white space. *)
Definition starts_nonblank (s : jsstring) : Prop :=
  match s with
  | [] => True
  | c :: _ => isWhiteSpace c = false
  end.

(** The text after the type word of a subject that the validation pattern
    accepts: an optional non-empty parenthesised part, a colon, a space,
    and at least one more character. *)
Definition conventional_tail (rest : jsstring) : Prop :=
  (exists d, rest = str ": " ++ d /\ d <> []) \/
  (exists x d, rest = str "(" ++ x ++ str "): " ++ d /\ x <> [] /\ d <> []).

(** The text found at a path, [empty] when there is no such file. *)
Definition content_at (path : jsstring) (w : World) : jsstring :=
  match files w path with
  | Some content => content
  | None => empty
  end.

Definition release_1_2_0 : Generator :=
  {| dryRun := false;
     version := vstr (str "1.2.0");
     changelogPath := str "CHANGELOG.md" |}.

Definition preview_1_1_0 : Generator :=
  {| dryRun := true;
     version := vstr (str "1.1.0");
     changelogPath := str "CHANGELOG.md" |}.

Definition feb_1 : Date :=
  {| getFullYear := 2024; getMonth := 1; getDate_ := 1 |}.

Definition one_feat_log : jsstring := str "abc1234def0|feat: add x|".

Definition one_fix_log : jsstring := str "9999999aaaa|fix: patch leak|".

Definition two_line_log : jsstring :=
  str "abc1234def0|feat: add x|first line of the body" ++ nl
  ++ str "second line of the body".

(** Commits as git holds them. *)
Definition git_docs : Script.GitCommit :=
  {| Script.full_hash := str "0123456789abcdef0123456789abcdef01234567";
     Script.short_hash := str "0123456";
     Script.git_subject := str "docs: update readme";
     Script.git_body := empty |}.



Definition git_refactor_breaking : Script.GitCommit :=
  {| Script.full_hash := str "abc1234def0abc1234def0abc1234def0abc1234";
     Script.short_hash := str "abc1234";
     Script.git_subject := str "refactor: cleanup";
     Script.git_body := str "BREAKING CHANGE: removed foo()" |}.

(** The types other than [feat], [fix], [perf], [chore] and [ci]. *)
Definition default_types : list jsstring :=
  [ str "docs"; str "style"; str "test"; str "refactor"; str "revert";
    str "other" ].

(** Pipes of 64 KiB in which [echo] is killed whenever it can be. *)
Definition hostile_pipes : Script.Pipes :=
  {| Script.capacity := 64 * 1024;
     Script.first_echo_killed := true;
     Script.second_echo_killed := true |}.

(** A changelog path that cannot be written. *)
Definition world_with_directory : World :=
  {| files := fun _ => None;
     console := [];
     writes := [];
     unwritable := fun p => if JS.eqb p (str "CHANGELOG.md")
                            then Some (str "EISDIR: illegal operation on a directory")
                            else None;
     crashed := None |}.


(** * Properties *)

(** ** Strings *)

Lemma char_eqb_eq (a b : char) : char_eqb a b = true <-> a = b.
Proof. apply N.eqb_eq. Qed.

Lemma char_eqb_refl (a : char) : char_eqb a a = true.
Proof. apply N.eqb_refl. Qed.

Lemma char_eqb_sym (a b : char) : char_eqb a b = char_eqb b a.
Proof. apply N.eqb_sym. Qed.

Lemma eqb_eq (a b : jsstring) : JS.eqb a b = true <-> a = b.
Proof.
  revert b; induction a as [|x a IH]; intros [|y b]; simpl; split;
    try congruence; try reflexivity.
  - intros H. apply andb_true_iff in H as [H1 H2].
    apply char_eqb_eq in H1. apply IH in H2. congruence.
  - intros H. injection H as -> ->.
    rewrite char_eqb_refl. simpl. now apply IH.
Qed.

Lemma eqb_refl (a : jsstring) : JS.eqb a a = true.
Proof. now apply eqb_eq. Qed.

Lemma eqb_neq (a b : jsstring) : JS.eqb a b = false <-> a <> b.
Proof.
  split.
  - intros H E. apply eqb_eq in E. congruence.
  - intros H. destruct (JS.eqb a b) eqn:E; [|reflexivity].
    apply eqb_eq in E. contradiction.
Qed.

Lemma startsWith_app (p r : jsstring) : startsWith p (p ++ r) = true.
Proof.
  induction p as [|x p IH]; simpl; [reflexivity|].
  now rewrite char_eqb_refl.
Qed.

Lemma startsWith_split (p s : jsstring) :
  startsWith p s = true -> s = p ++ skipn (List.length p) s.
Proof.
  revert s; induction p as [|x p IH]; intros [|y s]; simpl; try congruence.
  intros H. apply andb_true_iff in H as [H1 H2].
  apply char_eqb_eq in H1. subst y. f_equal. now apply IH.
Qed.

Lemma startsWith_iff (p s : jsstring) :
  startsWith p s = true <-> exists r, s = p ++ r.
Proof.
  split.
  - intros H. eexists. now apply startsWith_split.
  - intros [r ->]. apply startsWith_app.
Qed.

Lemma includes_iff (w s : jsstring) :
  includes w s = true <-> exists pre post, s = pre ++ w ++ post.
Proof.
  induction s as [|c s IH]; simpl.
  - rewrite orb_false_r. split.
    + intros H. apply startsWith_iff in H as [r Hr]. now exists [], r.
    + intros (pre & post & H). destruct pre; simpl in H.
      * rewrite H. apply startsWith_app.
      * discriminate.
  - rewrite orb_true_iff, IH. split.
    + intros [H | (pre & post & H)].
      * apply (startsWith_iff w (c :: s)) in H as [r Hr]. now exists [], r.
      * exists (c :: pre), post. simpl. now f_equal.
    + intros (pre & post & H). destruct pre as [|x pre]; simpl in H.
      * left. apply (startsWith_iff w (c :: s)). now exists post.
      * right. injection H as _ H. now exists pre, post.
Qed.

Lemma includes_infix (w pre s post : jsstring) :
  includes w s = true -> includes w (pre ++ s ++ post) = true.
Proof.
  rewrite !includes_iff. intros (a & b & ->).
  exists (pre ++ a), (b ++ post). now rewrite <- !app_assoc.
Qed.

Lemma takeWhile_dropWhile (p : char -> bool) (s : jsstring) :
  takeWhile p s ++ dropWhile p s = s.
Proof.
  induction s as [|c s IH]; simpl; [reflexivity|].
  destruct (p c); simpl; [now f_equal | reflexivity].
Qed.

Lemma takeWhile_all (p : char -> bool) (s : jsstring) :
  Forall (fun c => p c = true) s -> takeWhile p s = s /\ dropWhile p s = [].
Proof.
  induction 1 as [|c s Hc _ [IH1 IH2]]; simpl; [now split|].
  rewrite Hc. split; [now f_equal | assumption].
Qed.

Lemma takeWhile_app_stop (p : char -> bool) (a : jsstring) (c : char)
    (r : jsstring) :
  Forall (fun x => p x = true) a -> p c = false ->
  takeWhile p (a ++ c :: r) = a /\ dropWhile p (a ++ c :: r) = c :: r.
Proof.
  intros Ha Hc. induction Ha as [|x a Hx _ [IH1 IH2]]; simpl.
  - now rewrite Hc.
  - rewrite Hx. split; [now f_equal | assumption].
Qed.

Lemma firstn_suffix (pre rest : jsstring) :
  firstn (List.length (pre ++ rest) - List.length rest) (pre ++ rest) = pre.
Proof.
  rewrite length_app.
  replace (List.length pre + List.length rest - List.length rest)
    with (List.length pre + 0) by lia.
  rewrite firstn_app_2. simpl. apply app_nil_r.
Qed.

Lemma skipn_prefix (pre rest : jsstring) :
  skipn (List.length pre) (pre ++ rest) = rest.
Proof.
  induction pre; simpl; auto.
Qed.

(** ** The matcher *)

(** The longest run is tried first: when the continuation accepts what is
    left after it, that is the result. *)
Lemma greedy_first {R} (p : char -> bool) (s : jsstring)
    (k : jsstring -> option R) (r : R) :
  k (dropWhile p s) = Some r -> greedy p s k = Some r.
Proof.
  induction s as [|c s IH]; simpl; [auto|].
  destruct (p c); [|auto].
  intros H. now rewrite (IH H).
Qed.

(** Backtracking into the run is useless when the continuation rejects
    every text that begins with a character of the class. *)
Lemma greedy_det {R} (p : char -> bool) (s : jsstring)
    (k : jsstring -> option R) :
  (forall c t, p c = true -> k (c :: t) = None) ->
  greedy p s k = k (dropWhile p s).
Proof.
  intros Hk. induction s as [|c s IH]; simpl; [reflexivity|].
  destruct (p c) eqn:Hc; [|reflexivity].
  rewrite IH. destruct (k (dropWhile p s)); [reflexivity|].
  now apply Hk.
Qed.

Lemma run_word {R} (w s : jsstring) (caps : list jsstring)
    (k : jsstring -> list jsstring -> option R) :
  run (word w) s caps k =
  if startsWith w s then k (skipn (List.length w) s) caps else None.
Proof.
  revert s; induction w as [|x w IH]; intros s; simpl; [reflexivity|].
  destruct s as [|y s]; [reflexivity|].
  rewrite (char_eqb_sym x y).
  destruct (char_eqb y x); simpl; [apply IH | reflexivity].
Qed.

(** ** The classifier *)

Lemma startsWith_matched (w s : jsstring) :
  startsWith w s = true ->
  firstn (List.length s - List.length (skipn (List.length w) s)) s = w.
Proof.
  intros H. apply startsWith_split in H.
  set (r := skipn (List.length w) s) in *.
  rewrite H. apply firstn_suffix.
Qed.

(** The type is the first type word that the subject begins with, and
    [other] when there is none. *)
Lemma getCommitType_spec (s : jsstring) :
  getCommitType s =
  match find (fun w => startsWith w s) type_words with
  | Some w => w
  | None => str "other"
  end.
Proof.
  unfold getCommitType, exec, type_re, lit, type_words.
  cbn [run find]. rewrite !run_word.
  repeat match goal with
  | |- context [startsWith ?w s] =>
      let E := fresh "E" in
      destruct (startsWith w s) eqn:E;
      [ cbn [app]; now rewrite (startsWith_matched _ _ E) | ]
  end.
  reflexivity.
Qed.

Lemma dropWhile_head (p : char -> bool) (s : jsstring) (c : char)
    (r : jsstring) :
  dropWhile p s = c :: r -> p c = false.
Proof.
  induction s as [|x s IH]; simpl; [discriminate|].
  destruct (p x) eqn:E; [assumption|].
  intros H. injection H as -> _. assumption.
Qed.

Lemma notc_false (a : ascii) (c : char) : notc a c = false <-> c = chr a.
Proof.
  unfold notc. rewrite negb_false_iff. apply char_eqb_eq.
Qed.

Lemma plus_det {R} (a : ascii) (r : re) (s : jsstring) (caps : list jsstring)
    (k : jsstring -> list jsstring -> option R) :
  run (Seq (Plus (notc a)) (Seq (Chr (chr a)) r)) s caps k =
  match takeWhile (notc a) s, dropWhile (notc a) s with
  | _ :: _, _ :: rest => run r rest caps k
  | _, _ => None
  end.
Proof.
  cbn [run]. destruct s as [|x s]; [reflexivity|].
  cbn [takeWhile dropWhile]. destruct (notc a x) eqn:Hx; [|reflexivity].
  rewrite greedy_det.
  - destruct (dropWhile (notc a) s) as [|c rest] eqn:E; [reflexivity|].
    apply dropWhile_head in E. apply notc_false in E. subst c.
    now rewrite char_eqb_refl.
  - intros c t Hc. unfold notc in Hc. apply negb_true_iff in Hc.
    now rewrite Hc.
Qed.

Lemma grp_plus_det {R} (a : ascii) (s : jsstring) (caps : list jsstring)
    (k : jsstring -> list jsstring -> option R) :
  run (Seq (Grp (Plus (notc a))) (Chr (chr a))) s caps k =
  match takeWhile (notc a) s, dropWhile (notc a) s with
  | _ :: _, _ :: rest => k rest (caps ++ [takeWhile (notc a) s])
  | _, _ => None
  end.
Proof.
  cbn [run]. destruct s as [|x s]; [reflexivity|].
  cbn [takeWhile dropWhile]. destruct (notc a x) eqn:Hx; [|reflexivity].
  rewrite greedy_det.
  - destruct (dropWhile (notc a) s) as [|c rest] eqn:E; [reflexivity|].
    pose proof (dropWhile_head _ _ _ _ E) as Hc. apply notc_false in Hc. subst c.
    rewrite char_eqb_refl. do 2 f_equal.
    assert (Hs : x :: s = (x :: takeWhile (notc a) s) ++ chr a :: rest).
    { simpl. rewrite <- E. now rewrite takeWhile_dropWhile. }
    rewrite Hs at 1 2. f_equal. apply firstn_suffix.
  - intros c t Hc. unfold notc in Hc. apply negb_true_iff in Hc.
    now rewrite Hc.
Qed.

Lemma getCommitScope_spec (s : jsstring) :
  getCommitScope s =
  match scope_of s with
  | Some sc => sc
  | None => empty
  end.
Proof.
  unfold getCommitScope, exec, scope_re, scope_of.
  rewrite plus_det.
  destruct (takeWhile (notc "(") s) as [|x p]; [reflexivity|].
  destruct (dropWhile (notc "(") s) as [|c r]; [reflexivity|].
  rewrite grp_plus_det.
  destruct (takeWhile (notc ")") r) as [|y sc]; [now destruct (dropWhile _ r)|].
  destruct (dropWhile (notc ")") r); reflexivity.
Qed.

Lemma matched_rest (pre rest : jsstring) :
  skipn (List.length
           (firstn (List.length (pre ++ rest) - List.length rest) (pre ++ rest)))
        (pre ++ rest) = rest.
Proof.
  rewrite firstn_suffix. apply skipn_prefix.
Qed.

Lemma getCommitMessage_spec (s : jsstring) :
  getCommitMessage s = message_of s.
Proof.
  unfold getCommitMessage, replace_empty, exec, message_re, message_of.
  rewrite plus_det.
  pose proof (takeWhile_dropWhile (notc ":") s) as Hs.
  destruct (takeWhile (notc ":") s) as [|x p]; [reflexivity|].
  destruct (dropWhile (notc ":") s) as [|c r]; [reflexivity|].
  cbn [run].
  erewrite greedy_first by reflexivity.
  pose proof (takeWhile_dropWhile isWhiteSpace r) as Hr.
  set (rest := dropWhile isWhiteSpace r) in *.
  assert (E : s = ((x :: p) ++ c :: takeWhile isWhiteSpace r) ++ rest).
  { rewrite <- app_assoc. simpl. rewrite Hr. symmetry. exact Hs. }
  cbv iota beta. rewrite E at 1 2 3. apply matched_rest.
Qed.

Lemma type_words_plain (t : jsstring) :
  In t type_words ->
  t <> [] /\
  Forall (fun c => notc "(" c = true) t /\
  Forall (fun c => notc ":" c = true) t.
Proof.
  intros H. unfold type_words in H. simpl in H.
  repeat (destruct H as [<- | H];
          [ split; [discriminate | split; repeat constructor] | ]).
  contradiction.
Qed.

Lemma type_words_first (t r : jsstring) :
  In t type_words ->
  find (fun w => startsWith w (t ++ r)) type_words = Some t.
Proof.
  intros H. unfold type_words in H. simpl in H.
  repeat (destruct H as [<- | H]; [ reflexivity | ]).
  contradiction.
Qed.

Lemma whitespace_plain (c : char) :
  isWhiteSpace c = true -> notc "(" c = true /\ notc ":" c = true.
Proof.
  intros H. unfold notc, char_eqb. split; apply negb_true_iff.
  - destruct (N.eqb_spec c (chr "(")) as [->|]; [discriminate H | reflexivity].
  - destruct (N.eqb_spec c (chr ":")) as [->|]; [discriminate H | reflexivity].
Qed.

(** C3, as stated, fails: the subject ["feat: "] is classified as [feat]
    with an empty description, not as [other] with the subject kept. *)
Lemma classify_feat_blank_not_other :
  type feat_blank = str "feat" /\
  scope feat_blank = empty /\
  message feat_blank = empty /\
  ~ (type feat_blank = str "other" /\ scope feat_blank = empty /\
     message feat_blank = str "feat: ").
Proof.
  repeat split; try reflexivity.
  intros (H & _). vm_compute in H. discriminate H.
Qed.

(** C3, amended: for a subject made of a recognised type word, a colon and
    nothing but white space, the record has that type word as its type, an
    empty scope and an empty description. *)
Theorem classify_type_colon_blank (h b t ws : jsstring) :
  In t type_words ->
  Forall (fun c => isWhiteSpace c = true) ws ->
  let c := classify h (t ++ str ":" ++ ws) b in
  type c = t /\ scope c = empty /\ message c = empty.
Proof.
  intros Ht Hws. cbn [classify type scope message].
  destruct (type_words_plain _ Ht) as (Hne & Hparen & Hcolon).
  assert (Hws' : Forall (fun c => notc "(" c = true) ws).
  { eapply Forall_impl; [|exact Hws]. intros c Hc. now apply whitespace_plain. }
  split; [|split].
  - rewrite getCommitType_spec. now rewrite type_words_first.
  - rewrite getCommitScope_spec. unfold scope_of.
    assert (Hall : Forall (fun c => notc "(" c = true) (t ++ str ":" ++ ws)).
    { apply Forall_app. split; [assumption|].
      apply Forall_app. split; [repeat constructor | assumption]. }
    destruct (takeWhile_all _ _ Hall) as [_ ->].
    now destruct (takeWhile _ _).
  - rewrite getCommitMessage_spec. unfold message_of.
    change (t ++ str ":" ++ ws) with (t ++ chr ":" :: ws).
    destruct (takeWhile_app_stop (notc ":") t (chr ":") ws Hcolon eq_refl)
      as [-> ->].
    destruct t as [|x t]; [contradiction|].
    now destruct (takeWhile_all _ _ Hws) as [_ ->].
Qed.

Lemma classify_type_colon_blank_witness :
  In (str "feat") type_words /\
  Forall (fun c => isWhiteSpace c = true) (str " ") /\
  type feat_blank = str "feat" /\ scope feat_blank = empty /\
  message feat_blank = empty.
Proof.
  assert (Ht : In (str "feat") type_words) by (left; reflexivity).
  assert (Hws : Forall (fun c => isWhiteSpace c = true) (str " "))
    by (repeat constructor).
  split; [exact Ht | split; [exact Hws|]].
  exact (classify_type_colon_blank (str "abc1234") empty _ _ Ht Hws).
Defined.

(** C4, as stated, fails: ["random(x): do it"] does not match the
    conventional pattern, yet its scope is ["x"] and its description
    ["do it"]; for ["URL: http://x"] the description is ["http://x"]. *)
Lemma classify_unmatched_not_degraded :
  type random_scoped = str "other" /\
  scope random_scoped = str "x" /\
  message random_scoped = str "do it" /\
  type url_subject = str "other" /\
  scope url_subject = empty /\
  message url_subject = str "http://x" /\
  ~ (scope random_scoped = empty /\
     message random_scoped = str "random(x): do it") /\
  ~ (message url_subject = str "URL: http://x").
Proof.
  repeat split; try reflexivity.
  - intros (H & _). vm_compute in H. discriminate H.
  - intros H. vm_compute in H. discriminate H.
Qed.

Lemma no_char_all (a : ascii) (s : jsstring) :
  ~ In (chr a) s -> Forall (fun c => notc a c = true) s.
Proof.
  intros H. apply Forall_forall. intros c Hc.
  unfold notc. apply negb_true_iff.
  destruct (char_eqb c (chr a)) eqn:E; [|reflexivity].
  apply char_eqb_eq in E. subst c. contradiction.
Qed.

(** C4, amended: a subject that begins with none of the ten type words
    gets type [other]; its scope is empty when it contains no [(], and its
    description is the subject unchanged when it contains no [:]. *)
Theorem classify_unrecognised (h s b : jsstring) :
  (forall w, In w type_words -> startsWith w s = false) ->
  let c := classify h s b in
  type c = str "other" /\
  (~ In (chr "(") s -> scope c = empty) /\
  (~ In (chr ":") s -> message c = s).
Proof.
  intros Hw. cbn [classify type scope message]. split; [|split].
  - rewrite getCommitType_spec.
    destruct (find _ type_words) as [w|] eqn:E; [|reflexivity].
    apply find_some in E as [Hin Hs]. rewrite (Hw _ Hin) in Hs. discriminate.
  - intros H. rewrite getCommitScope_spec. unfold scope_of.
    destruct (takeWhile_all _ _ (no_char_all _ _ H)) as [_ ->].
    now destruct (takeWhile _ _).
  - intros H. rewrite getCommitMessage_spec. unfold message_of.
    destruct (takeWhile_all _ _ (no_char_all _ _ H)) as [_ ->].
    now destruct (takeWhile _ _).
Qed.

Lemma classify_unrecognised_witness :
  (forall w, In w type_words -> startsWith w (str "update readme") = false) /\
  type plain_subject = str "other" /\
  scope plain_subject = empty /\
  message plain_subject = str "update readme".
Proof.
  assert (Hw : forall w, In w type_words ->
                 startsWith w (str "update readme") = false).
  { intros w H. unfold type_words in H. simpl in H.
    repeat (destruct H as [<- | H]; [reflexivity|]). contradiction. }
  split; [exact Hw|].
  destruct (classify_unrecognised (str "abc1234") (str "update readme")
              empty Hw) as (Ht & Hs & Hm).
  split; [exact Ht | split].
  - apply Hs. vm_compute. intuition discriminate.
  - apply Hm. vm_compute. intuition discriminate.
Defined.

(** ** Grouping *)

Lemma fold_push (keys : list jsstring) (commits : list Commit) :
  forall acc : jsstring -> list Commit,
  fold_left (fun groups commit => push (bucket commit) commit groups)
            commits (map (fun k => (k, acc k)) keys) =
  map (fun k => (k, acc k ++ selected k commits)) keys.
Proof.
  induction commits as [|c cs IH]; intros acc; simpl.
  - apply map_ext. intros k. now rewrite app_nil_r.
  - unfold push at 2. rewrite map_map. simpl.
    rewrite (map_ext _ (fun k => (k, acc k ++ if JS.eqb k (bucket c)
                                             then [c] else []))).
    + rewrite (IH (fun k => acc k ++ if JS.eqb k (bucket c) then [c] else [])).
      apply map_ext. intros k. rewrite <- app_assoc. unfold selected. simpl.
      now destruct (JS.eqb k (bucket c)).
    + intros k. destruct (JS.eqb k (bucket c)); [reflexivity|].
      now rewrite app_nil_r.
Qed.

Lemma fillGroups_spec (commits : list Commit) :
  fillGroups commits = map (fun k => (k, selected k commits)) labels.
Proof.
  unfold fillGroups.
  change empty_groups with (map (fun k => (k, @nil Commit)) labels).
  now rewrite (fold_push labels commits (fun _ => [])).
Qed.

Lemma In_groupCommits (key : jsstring) (cs commits : list Commit) :
  In (key, cs) (groupCommits commits) <->
  In key labels /\ cs = selected key commits /\ cs <> [].
Proof.
  unfold groupCommits. rewrite fillGroups_spec, filter_In, in_map_iff.
  simpl. split.
  - intros [(k & E & Hk) Hlen]. injection E as -> <-.
    repeat split; auto. intros E. rewrite E in Hlen. discriminate.
  - intros (Hk & -> & Hne). split; [now exists key|].
    destruct (selected key commits); [contradiction | reflexivity].
Qed.

Lemma bucket_label (c : Commit) : In (bucket c) labels.
Proof.
  unfold bucket, labels. simpl.
  repeat match goal with
  | |- context [if ?b then _ else _] => destruct b
  end; tauto.
Qed.


Lemma In_selected (key : jsstring) (c : Commit) (commits : list Commit) :
  In c (selected key commits) <-> In c commits /\ key = bucket c.
Proof.
  unfold selected. rewrite filter_In. now rewrite eqb_eq.
Qed.

(** Every commit of the sequence is listed under the key of its bucket. *)
Lemma In_own_group (c : Commit) (commits : list Commit) :
  In c commits ->
  In (bucket c, selected (bucket c) commits) (groupCommits commits) /\
  In c (selected (bucket c) commits).
Proof.
  intros H.
  assert (Hc : In c (selected (bucket c) commits)) by now apply In_selected.
  split; [|exact Hc].
  apply In_groupCommits. repeat split; [apply bucket_label|].
  intros E. rewrite E in Hc. contradiction.
Qed.

(** ... and under no other key. *)
Lemma In_group_key (key : jsstring) (cs commits : list Commit) (c : Commit) :
  In (key, cs) (groupCommits commits) -> In c cs -> key = bucket c.
Proof.
  intros H Hc. apply In_groupCommits in H as (_ & -> & _).
  now apply In_selected in Hc.
Qed.








(** ** Rendering *)

Lemma fold_append {A} (g : A -> jsstring) (l : list A) (acc : jsstring) :
  fold_left (fun entries x => entries ++ g x) l acc = acc ++ List.concat (map g l).
Proof.
  revert acc; induction l as [|x l IH]; intros acc; simpl.
  - now rewrite app_nil_r.
  - rewrite IH. now rewrite <- app_assoc.
Qed.

Lemma fold_left_pointwise {A B} (f g : A -> B -> A) :
  (forall a b, f a b = g a b) ->
  forall l a, fold_left f l a = fold_left g l a.
Proof.
  intros H l. induction l as [|x l IH]; intros a; simpl; [reflexivity|].
  now rewrite H, IH.
Qed.

Lemma generateEntries_spec (commits : list Commit) :
  generateEntries commits = List.concat (map render_group (groupCommits commits)).
Proof.
  destruct commits as [|c cs]; [reflexivity|].
  unfold generateEntries.
  rewrite (fold_left_pointwise _ (fun entries kv => entries ++ render_group kv)).
  - apply (fold_append render_group).
  - intros entries kv. unfold render_group.
    rewrite (fold_append (fun c => formatCommit c ++ nl)).
    now rewrite <- !app_assoc.
Qed.

Lemma dropWhile_app_last (p : char -> bool) (a : jsstring) (c : char) :
  p c = false -> dropWhile p (a ++ [c]) <> [].
Proof.
  intros Hc. induction a as [|x a IH]; simpl.
  - now rewrite Hc.
  - destruct (p x); [assumption | discriminate].
Qed.

Lemma trim_nonblank (c : char) (s : jsstring) :
  isWhiteSpace c = false -> trim (c :: s) <> [].
Proof.
  intros Hc. unfold trim. cbn [dropWhile]. rewrite Hc. cbn [rev].
  intros E. apply (f_equal (@rev char)) in E. rewrite rev_involutive in E.
  now apply (dropWhile_app_last isWhiteSpace (rev s) c Hc).
Qed.

Lemma generateEntries_head (commits : list Commit) :
  commits <> [] ->
  exists rest, generateEntries commits = str "### " ++ rest.
Proof.
  intros H. rewrite generateEntries_spec.
  destruct commits as [|c cs]; [contradiction|].
  destruct (In_own_group c (c :: cs) (or_introl eq_refl)) as [Hg _].
  destruct (groupCommits (c :: cs)) as [|kv g]; [contradiction|].
  cbn [map List.concat]. unfold render_group. rewrite <- app_assoc.
  eexists. reflexivity.
Qed.

Lemma generateReleaseSection_nonblank (this : Generator) (now : Date)
    (c : char) (s : jsstring) :
  isWhiteSpace c = false ->
  generateReleaseSection this now (c :: s) =
  str "## [" ++ toString (version this) ++ str "] - " ++ getDate now
    ++ nl ++ nl ++ (c :: s) ++ nl.
Proof.
  intros Hc. unfold generateReleaseSection.
  pose proof (trim_nonblank c s Hc) as H.
  now destruct (trim (c :: s)).
Qed.

(** The release section of a non-empty commit sequence opens with its
    version header. *)
Lemma releaseSection_head (this : Generator) (now : Date)
    (commits : list Commit) :
  commits <> [] ->
  exists rest,
    generateReleaseSection this now (generateEntries commits) =
    str "## [" ++ rest.
Proof.
  intros H. destruct (generateEntries_head commits H) as [rest ->].
  cbn [str list_ascii_of_string map app].
  rewrite generateReleaseSection_nonblank by reflexivity.
  eexists. reflexivity.
Qed.

(** ** Properties of the changelog *)

(** C1: when the existing changelog begins with ["# Changelog"], the text
    assembled for a non-empty commit sequence is the new release section
    followed by the whole existing text: it opens with the section's
    ["## ["] header, and the ["# Changelog"] line is no longer first. *)
Theorem combine_puts_section_before_header (this : Generator) (now : Date)
    (commits : list Commit) (existing : jsstring) :
  commits <> [] ->
  startsWith (str "# Changelog") existing = true ->
  let section := generateReleaseSection this now (generateEntries commits) in
  combine section existing = section ++ existing /\
  startsWith (str "## [") (combine section existing) = true /\
  startsWith (str "# Changelog") (combine section existing) = false.
Proof.
  intros Hne Hhead section. unfold combine. rewrite Hhead.
  cbn [str list_ascii_of_string map app].
  split; [reflexivity|].
  destruct (releaseSection_head this now commits Hne) as [rest Hrest].
  fold section in Hrest. rewrite Hrest. split; reflexivity.
Qed.

Lemma combine_puts_section_before_header_witness :
  [feat_plain] <> [] /\
  startsWith (str "# Changelog") old_changelog = true /\
  combine (generateReleaseSection release_1_1_0 jan_15
             (generateEntries [feat_plain])) old_changelog =
  str "## [1.1.0] - 2024-01-15" ++ nl ++ nl
  ++ str "### Features" ++ nl ++ nl
  ++ str "- add x ([abc1234](../../commit/abc1234))" ++ nl ++ nl ++ nl
  ++ old_changelog.
Proof.
  assert (Hne : [feat_plain] <> []) by discriminate.
  assert (Hhead : startsWith (str "# Changelog") old_changelog = true)
    by reflexivity.
  split; [exact Hne | split; [exact Hhead|]].
  destruct (combine_puts_section_before_header release_1_1_0 jan_15
              [feat_plain] old_changelog Hne Hhead) as [E _].
  rewrite E. reflexivity.
Defined.

(** With no ["# Changelog"] at the start of the existing text (an empty or
    absent changelog in particular) the header is synthesized first. *)
Lemma combine_fresh_header (section existing : jsstring) :
  startsWith (str "# Changelog") existing = false ->
  combine section existing =
  str "# Changelog" ++ nl ++ nl ++ section ++ existing.
Proof.
  intros H. unfold combine. rewrite H. now rewrite <- !app_assoc.
Qed.

(** C2, as stated, fails: the commit with hash [abc1234], scope [s] and
    description [d] is rendered with the bold scope after the
    description. *)
Lemma formatCommit_scope_not_prefix :
  type feat_s_d = str "feat" /\
  hash feat_s_d = str "abc1234" /\
  scope feat_s_d = str "s" /\
  message feat_s_d = str "d" /\
  formatCommit feat_s_d = str "- d **s**: ([abc1234](../../commit/abc1234))" /\
  formatCommit feat_s_d <> str "- **s**: d ([abc1234](../../commit/abc1234))".
Proof. repeat split; try reflexivity. discriminate. Qed.

(** C2, amended: with a non-empty scope, the rendered line is ["- "], the
    description, then [" **scope**:"], then the commit link: the bold scope
    follows the description. *)
Theorem formatCommit_scope_after_description (c : Commit) :
  scope c <> [] ->
  formatCommit c =
  str "- " ++ message c ++ str " **" ++ scope c ++ str "**:"
  ++ str " ([" ++ hash c ++ str "](../../commit/" ++ hash c ++ str "))".
Proof.
  intros H. unfold formatCommit.
  destruct (scope c) as [|x sc]; [contradiction|].
  now rewrite <- !app_assoc.
Qed.

Lemma formatCommit_scope_after_description_witness :
  scope feat_auth <> [] /\
  formatCommit feat_auth =
  str "- add JWT login **auth**: ([abc1234](../../commit/abc1234))" /\
  formatCommit feat_auth <>
  str "- **auth**: add JWT login ([abc1234](../../commit/abc1234))".
Proof.
  assert (H : scope feat_auth <> []) by discriminate.
  split; [exact H|].
  rewrite (formatCommit_scope_after_description feat_auth H).
  split; [reflexivity | discriminate].
Defined.

(** C7: a commit with [breaking = true], whatever its type, is listed under
    ["Breaking Changes"] and under no other category. *)
Theorem breaking_only_in_breaking_changes (commits : list Commit)
    (c : Commit) :
  In c commits ->
  breaking c = true ->
  (exists cs, In (str "Breaking Changes", cs) (groupCommits commits)
              /\ In c cs) /\
  (forall key cs, In (key, cs) (groupCommits commits) -> In c cs ->
                  key = str "Breaking Changes").
Proof.
  intros Hin Hb.
  assert (E : bucket c = str "Breaking Changes")
    by (unfold bucket; now rewrite Hb).
  split.
  - destruct (In_own_group c commits Hin) as [Hg Hc]. rewrite E in Hg, Hc.
    eexists. split; eassumption.
  - intros key cs Hg Hc. rewrite <- E. eapply In_group_key; eassumption.
Qed.

Lemma breaking_only_in_breaking_changes_witness :
  In feat_breaking [feat_plain; feat_breaking] /\
  breaking feat_breaking = true /\
  type feat_breaking = str "feat" /\
  groupCommits [feat_plain; feat_breaking] =
  [ (str "Breaking Changes", [feat_breaking]); (str "Features", [feat_plain]) ]
  /\
  (forall key cs,
     In (key, cs) (groupCommits [feat_plain; feat_breaking]) ->
     In feat_breaking cs -> key = str "Breaking Changes").
Proof.
  assert (Hin : In feat_breaking [feat_plain; feat_breaking])
    by (right; left; reflexivity).
  assert (Hb : breaking feat_breaking = true) by reflexivity.
  split; [exact Hin | split; [exact Hb | split; [reflexivity|]]].
  split; [reflexivity|].
  exact (proj2 (breaking_only_in_breaking_changes
                  [feat_plain; feat_breaking] feat_breaking Hin Hb)).
Defined.


(** ** The run as a whole *)

Lemma getCommitsSinceLastTag_keeps_files (gitlog : Result jsstring)
    (w : World) :
  files (snd (getCommitsSinceLastTag gitlog w)) = files w /\
  writes (snd (getCommitsSinceLastTag gitlog w)) = writes w.
Proof.
  unfold getCommitsSinceLastTag.
  destruct (bind gitlog _); split; reflexivity.
Qed.

(** C8: with no commits, the entries and the release section are the empty
    string for every version and date, and the run performs no write: the
    files are left as they were. *)
Theorem generate_no_commits_noop (this : Generator) (gitlog : Result jsstring)
    (now : Date) (w : World) :
  fst (getCommitsSinceLastTag gitlog w) = [] ->
  generateEntries [] = empty /\
  generateReleaseSection this now (generateEntries []) = empty /\
  files (generate this gitlog now w) = files w /\
  writes (generate this gitlog now w) = writes w.
Proof.
  intros H. split; [reflexivity | split; [reflexivity|]].
  unfold generate.
  set (w1 := log (str "Fetching commits...") blue _).
  pose proof (getCommitsSinceLastTag_keeps_files gitlog w1) as [Hf Hw].
  assert (H1 : fst (getCommitsSinceLastTag gitlog w1) = []).
  { revert H. unfold getCommitsSinceLastTag. now destruct (bind gitlog _). }
  destruct (getCommitsSinceLastTag gitlog w1) as [commits w2].
  simpl in H1, Hf, Hw. subst commits. simpl. split; assumption.
Qed.

Lemma generate_no_commits_noop_witness :
  fst (getCommitsSinceLastTag (Ok empty) world_with_changelog) = [] /\
  files (generate release_1_1_0 (Ok empty) jan_15 world_with_changelog)
        (str "CHANGELOG.md") = Some old_changelog /\
  writes (generate release_1_1_0 (Ok empty) jan_15 world_with_changelog)
  = [].
Proof.
  assert (H : fst (getCommitsSinceLastTag (Ok empty) world_with_changelog)
              = []) by reflexivity.
  split; [exact H|].
  destruct (generate_no_commits_noop release_1_1_0 (Ok empty) jan_15
              world_with_changelog H) as (_ & _ & Hf & Hw).
  rewrite Hf, Hw. split; reflexivity.
Defined.

(** A run that does find commits writes the assembled text. *)
Lemma generate_existing_header_example :
  let w := generate release_1_1_0 (Ok (str "abc1234def0|feat: add x|"))
                    jan_15 world_with_changelog in
  files w (str "CHANGELOG.md") =
  Some (str "## [1.1.0] - 2024-01-15" ++ nl ++ nl
        ++ str "### Features" ++ nl ++ nl
        ++ str "- add x ([abc1234](../../commit/abc1234))" ++ nl ++ nl ++ nl
        ++ str "# Changelog" ++ nl ++ nl
        ++ str "## [1.0.0] - 2024-01-01" ++ nl ++ nl) /\
  List.length (writes w) = 1.
Proof. split; reflexivity. Qed.

(** ** Version detection *)

Lemma detectVersion_never_throws (Pkg : Type)
    (JSON_parse : jsstring -> Result Pkg) (get_version : Pkg -> Result value)
    (w : World) :
  exists v, detectVersion Pkg JSON_parse get_version w = Ok v.
Proof.
  unfold detectVersion, try_catch.
  destruct (bind _ _); eexists; reflexivity.
Qed.

(** C9, as stated, fails: with no manifest to read, [detectVersion] does
    not throw; it returns ["1.0.0"], which becomes the version of the
    generator, and the run goes on to write a changelog for it. *)
Lemma missing_manifest_gets_default :
  (exists e, readFileSync (str "package.json") empty_world = Throw e) /\
  detectVersion unit parse_fails no_version empty_world
  = Ok (vstr (str "1.0.0")) /\
  (forall e, detectVersion unit parse_fails no_version empty_world
             <> Throw e) /\
  (exists w,
     main unit parse_fails no_version [] (Ok (str "abc1234def0|feat: add x|"))
          jan_15 empty_world = Ok w /\
     files w (str "CHANGELOG.md") =
     Some (str "# Changelog" ++ nl ++ nl
           ++ str "## [1.0.0] - 2024-01-15" ++ nl ++ nl
           ++ str "### Features" ++ nl ++ nl
           ++ str "- add x ([abc1234](../../commit/abc1234))" ++ nl ++ nl ++ nl)).
Proof.
  split; [eexists; reflexivity|].
  split; [reflexivity|].
  split; [discriminate|].
  eexists. split; reflexivity.
Qed.

(** C9, amended: when the manifest cannot be read, or its text cannot be
    parsed, [detectVersion] does not fail; it returns the default
    ["1.0.0"]. *)
Theorem detectVersion_falls_back (Pkg : Type)
    (JSON_parse : jsstring -> Result Pkg) (get_version : Pkg -> Result value)
    (w : World) :
  files w (str "package.json") = None \/
  (exists text e, files w (str "package.json") = Some text /\
                  JSON_parse text = Throw e) ->
  detectVersion Pkg JSON_parse get_version w = Ok (vstr (str "1.0.0")).
Proof.
  unfold detectVersion, readFileSync.
  intros [H | (text & e & H & Hp)]; rewrite H; simpl; [reflexivity|].
  now rewrite Hp.
Qed.

Lemma detectVersion_falls_back_witness :
  (exists text e,
     files world_with_bad_manifest (str "package.json") = Some text /\
     parse_fails text = Throw e) /\
  detectVersion unit parse_fails no_version world_with_bad_manifest
  = Ok (vstr (str "1.0.0")).
Proof.
  assert (H : exists text e,
            files world_with_bad_manifest (str "package.json") = Some text /\
            parse_fails text = Throw e).
  { eexists. eexists. split; reflexivity. }
  split; [exact H|].
  exact (detectVersion_falls_back unit parse_fails no_version
           world_with_bad_manifest (or_intror H)).
Defined.

(** ** Release-type detection *)

(** [^.*w] matches a line exactly when the line contains [w]. *)
Lemma greedy_any_word {R} (w s : jsstring) (caps : list jsstring)
    (k : jsstring -> list jsstring -> option R) :
  (forall t c, is_some (k t c) = true) ->
  is_some (greedy anychar s (fun s' => run (word w) s' caps k)) = includes w s.
Proof.
  intros Hk.
  assert (Hw : forall t, is_some (run (word w) t caps k) = startsWith w t).
  { intros t. rewrite run_word. destruct (startsWith w t); [apply Hk | reflexivity]. }
  induction s as [|c s IH].
  - cbn [greedy includes]. rewrite Hw. now rewrite orb_false_r.
  - cbn [greedy includes anychar]. rewrite <- IH, <- Hw.
    destruct (greedy anychar s _); simpl; [now rewrite orb_true_r|].
    now rewrite orb_false_r.
Qed.

Lemma matches_includes (w line : jsstring) :
  matches (Seq (Star anychar) (word w)) line = includes w line.
Proof.
  unfold matches, exec. cbn [run].
  rewrite <- (greedy_any_word w line []
                (fun rest caps =>
                   Some (firstn (List.length line - List.length rest) line, caps)))
    by reflexivity.
  now destruct (greedy _ _ _).
Qed.

Lemma split_nonempty (sep : char) (s : jsstring) : split sep s <> [].
Proof.
  induction s as [|c s IH]; simpl; [discriminate|].
  destruct (char_eqb c sep); [discriminate|].
  destruct (split sep s); [contradiction | discriminate].
Qed.

Lemma split_app_sep (sep : char) (a b : jsstring) :
  split sep (a ++ sep :: b) = split sep a ++ split sep b.
Proof.
  induction a as [|c a IH]; simpl.
  - now rewrite char_eqb_refl.
  - rewrite IH. destruct (char_eqb c sep); [reflexivity|].
    pose proof (split_nonempty sep a) as H.
    now destruct (split sep a).
Qed.

Lemma split_join (sep : char) (x : jsstring) (xs : list jsstring) :
  split sep (join [sep] (x :: xs)) = List.concat (map (split sep) (x :: xs)).
Proof.
  revert x; induction xs as [|y ys IH]; intros x.
  - simpl. now rewrite app_nil_r.
  - change (join [sep] (x :: y :: ys)) with (x ++ sep :: join [sep] (y :: ys)).
    rewrite split_app_sep, IH. reflexivity.
Qed.

Lemma split_head_prefix (sep : char) (s h : jsstring) (r : list jsstring) :
  split sep s = h :: r -> exists post, s = h ++ post.
Proof.
  revert h r; induction s as [|c s IH]; intros h r; simpl.
  - intros E. injection E as <- _. now exists [].
  - destruct (char_eqb c sep).
    + intros E. injection E as <- _. now exists (c :: s).
    + destruct (split sep s) as [|h' r'] eqn:Es.
      * intros E. injection E as <- _. exists s. reflexivity.
      * intros E. injection E as <- _.
        destruct (IH h' r' eq_refl) as [post ->]. now exists post.
Qed.

Lemma In_split_infix (sep : char) (l s : jsstring) :
  In l (split sep s) -> exists pre post, s = pre ++ l ++ post.
Proof.
  revert l; induction s as [|c s IH]; intros l; simpl.
  - intros [<- | []]. now exists [], [].
  - destruct (char_eqb c sep).
    + intros [<- | H].
      * now exists [], (c :: s).
      * destruct (IH l H) as (pre & post & ->). now exists (c :: pre), post.
    + pose proof (split_nonempty sep s) as Hne.
      destruct (split sep s) as [|h r] eqn:Es; [contradiction|].
      intros [<- | H].
      * destruct (split_head_prefix sep s h r Es) as [post ->].
        now exists [], post.
      * destruct (IH l (or_intror H)) as (pre & post & ->).
        now exists (c :: pre), post.
Qed.

Lemma grep_q_none (w : jsstring) (lines : list jsstring) :
  includes w [] = false ->
  (forall l, In l lines -> includes w l = false) ->
  grep_q (Seq (Star anychar) (word w)) (join nl lines) = false.
Proof.
  intros Hw H. unfold grep_q.
  destruct (existsb _ _) eqn:E; [|reflexivity].
  apply existsb_exists in E as (l & Hl & Hm).
  rewrite matches_includes in Hm.
  destruct lines as [|x xs].
  - simpl in Hl. destruct Hl as [<- | []]. congruence.
  - unfold nl in Hl. rewrite split_join in Hl.
    apply in_concat in Hl as (ls & Hls & Hl).
    apply in_map_iff in Hls as (y & <- & Hy).
    destruct (In_split_infix _ _ _ Hl) as (pre & post & E).
    pose proof (includes_infix w pre l post Hm) as Hc.
    rewrite <- E, (H y Hy) in Hc. discriminate.
Qed.



(** When the history does not fit and [echo] is killed in both tests,
    neither test holds. *)
Lemma auto_detect_in_killed (p : Script.Pipes) (text : jsstring) :
  Script.fits p text = false ->
  Script.first_echo_killed p = true ->
  Script.second_echo_killed p = true ->
  Script.auto_detect_in p text = str "patch".
Proof.
  intros H H1 H2. unfold Script.auto_detect_in, Script.pipe_test.
  rewrite H, H1, H2. cbn [orb negb]. now rewrite !andb_false_r.
Qed.

(** C5, as stated, fails: a lone [docs] commit that is not breaking, and
    the empty sequence, give [patch], whatever the pipes do; the script
    never yields [none]. *)
Lemma detect_docs_is_patch :
  breaking (Script.record git_docs) = false /\
  type (Script.record git_docs) = str "docs" /\
  forall p,
    Script.detect p [git_docs] = str "patch" /\
    Script.detect p [] = str "patch" /\
    Script.detect p [git_docs] <> str "none" /\
    Script.detect p [] <> str "none".
Proof.
  split; [reflexivity | split; [reflexivity|]]. intros p.
  assert (H1 : Script.detect p [git_docs] = str "patch") by reflexivity.
  assert (H2 : Script.detect p [] = str "patch") by reflexivity.
  rewrite H1, H2. repeat split; discriminate.
Qed.

(** C5, amended: for every commit sequence, the empty one included, in
    which every commit has [breaking = false] and a type other than
    [feat], [fix], [perf], [chore] and [ci], and no one-line summary
    (abbreviated hash, space, subject) contains ["BREAKING CHANGE"] or
    ["feat"], the detected release type is [patch], whatever the pipes
    do. *)
Theorem detect_patch_by_default (p : Script.Pipes)
    (commits : list Script.GitCommit) :
  (forall g, In g commits ->
     breaking (Script.record g) = false /\
     In (type (Script.record g)) default_types /\
     includes (str "BREAKING CHANGE") (Script.summary g) = false /\
     includes (str "feat") (Script.summary g) = false) ->
  Script.detect p commits = str "patch".
Proof.
  intros H.
  unfold Script.detect, Script.auto_detect_in, Script.pipe_test,
    Script.history, breaking_pattern, feat_pattern, lit.
  rewrite !grep_q_none; try reflexivity.
  - intros l Hl. apply in_map_iff in Hl as (g & <- & Hg). now apply H.
  - intros l Hl. apply in_map_iff in Hl as (g & <- & Hg). now apply H.
Qed.

Lemma detect_patch_by_default_witness :
  (forall g, In g [git_docs] ->
     breaking (Script.record g) = false /\
     In (type (Script.record g)) default_types /\
     includes (str "BREAKING CHANGE") (Script.summary g) = false /\
     includes (str "feat") (Script.summary g) = false) /\
  Script.detect hostile_pipes [git_docs] = str "patch".
Proof.
  assert (H : forall g, In g [git_docs] ->
     breaking (Script.record g) = false /\
     In (type (Script.record g)) default_types /\
     includes (str "BREAKING CHANGE") (Script.summary g) = false /\
     includes (str "feat") (Script.summary g) = false).
  { intros g [<- | []]. repeat split; try reflexivity. now left. }
  split; [exact H|].
  exact (detect_patch_by_default hostile_pipes [git_docs] H).
Defined.

(** C6: a commit whose body contains ["BREAKING CHANGE"] has
    [breaking = true], yet the release type detected for it is [patch],
    and [minor] when a [feat] commit accompanies it: the body is not
    consulted. *)
Theorem resolve_misses_breaking_body :
  breaking refactor_breaking = true /\
  resolve [refactor_breaking] = str "patch" /\
  resolve [feat_plain; refactor_breaking] = str "minor".
Proof. repeat split; reflexivity. Qed.

(** The same commit as git holds it, in the script's own run: whatever
    the pipes do, the body is not read. *)
Lemma detect_misses_breaking_body :
  Script.record git_refactor_breaking = refactor_breaking /\
  forall p, Script.detect p [git_refactor_breaking] = str "patch".
Proof. split; [reflexivity | intros p; reflexivity]. Qed.

(** * Further properties *)

(** ** The classifier on well-formed and ill-formed subjects *)

(** X1: the type of every subject is one of the ten type words or
    [other]. *)
Theorem getCommitType_closed (s : jsstring) :
  In (getCommitType s) (type_words ++ [str "other"]).
Proof.
  rewrite getCommitType_spec. apply in_or_app.
  destruct (find _ type_words) as [w|] eqn:E.
  - left. now apply find_some in E.
  - right. now left.
Qed.

(** X2: a subject that begins with a type word gets that type, whatever
    follows the word; no colon is needed. *)
Theorem getCommitType_prefix (t r : jsstring) :
  In t type_words -> getCommitType (t ++ r) = t.
Proof.
  intros H. rewrite getCommitType_spec. now rewrite type_words_first.
Qed.

Lemma getCommitType_prefix_witness :
  In (str "fix") type_words /\
  getCommitType (str "fixed a typo") = str "fix".
Proof.
  assert (H : In (str "fix") type_words) by (right; left; reflexivity).
  split; [exact H|].
  exact (getCommitType_prefix (str "fix") (str "ed a typo") H).
Defined.

Lemma scope_of_group (p sc rest : jsstring) :
  p <> [] -> ~ In (chr "(") p -> sc <> [] -> ~ In (chr ")") sc ->
  scope_of (p ++ str "(" ++ sc ++ str ")" ++ rest) = Some sc.
Proof.
  intros Hp Hpn Hsc Hscn. unfold scope_of.
  change (p ++ str "(" ++ sc ++ str ")" ++ rest)
    with (p ++ chr "(" :: sc ++ chr ")" :: rest).
  destruct (takeWhile_app_stop (notc "(") p (chr "(") (sc ++ chr ")" :: rest)
              (no_char_all _ _ Hpn) eq_refl) as [-> ->].
  destruct p as [|x p]; [contradiction|].
  destruct (takeWhile_app_stop (notc ")") sc (chr ")") rest
              (no_char_all _ _ Hscn) eq_refl) as [-> ->].
  now destruct sc.
Qed.

(** X3: the scope is the first parenthesised group of the subject,
    wherever it stands: after a non-empty text without [(], a [(], a
    non-empty text without [)], and a [)], the scope is that text. *)
Theorem getCommitScope_first_group (p sc rest : jsstring) :
  p <> [] -> ~ In (chr "(") p -> sc <> [] -> ~ In (chr ")") sc ->
  getCommitScope (p ++ str "(" ++ sc ++ str ")" ++ rest) = sc.
Proof.
  intros Hp Hpn Hsc Hscn. rewrite getCommitScope_spec.
  now rewrite scope_of_group.
Qed.

Lemma getCommitScope_first_group_witness :
  str "fix: handle " <> [] /\ ~ In (chr "(") (str "fix: handle ") /\
  str "null" <> [] /\ ~ In (chr ")") (str "null") /\
  getCommitScope (str "fix: handle (null) input") = str "null".
Proof.
  assert (H1 : str "fix: handle " <> []) by discriminate.
  assert (H2 : ~ In (chr "(") (str "fix: handle "))
    by (vm_compute; intuition discriminate).
  assert (H3 : str "null" <> []) by discriminate.
  assert (H4 : ~ In (chr ")") (str "null"))
    by (vm_compute; intuition discriminate).
  repeat (split; [assumption|]).
  exact (getCommitScope_first_group (str "fix: handle ") (str "null")
           (str " input") H1 H2 H3 H4).
Defined.

Lemma takeWhile_all_true (p : char -> bool) (s : jsstring) :
  Forall (fun c => p c = true) (takeWhile p s).
Proof.
  induction s as [|c s IH]; simpl; [constructor|].
  destruct (p c) eqn:E; constructor; assumption.
Qed.

Lemma all_no_char (a : ascii) (s : jsstring) :
  Forall (fun c => notc a c = true) s -> ~ In (chr a) s.
Proof.
  intros H Hin. rewrite Forall_forall in H. specialize (H _ Hin).
  unfold notc in H. now rewrite char_eqb_refl in H.
Qed.

(** X4: a non-empty scope is always such a group: the subject is a
    non-empty text without [(], then [(], the scope, [)], and the rest;
    the scope holds no [)]. *)
Theorem getCommitScope_sound (s : jsstring) :
  getCommitScope s <> [] ->
  exists p rest,
    s = p ++ str "(" ++ getCommitScope s ++ str ")" ++ rest /\
    p <> [] /\ ~ In (chr "(") p /\ ~ In (chr ")") (getCommitScope s).
Proof.
  rewrite getCommitScope_spec. unfold scope_of.
  pose proof (takeWhile_dropWhile (notc "(") s) as Hs.
  pose proof (takeWhile_all_true (notc "(") s) as Hp.
  destruct (takeWhile (notc "(") s) as [|x p]; [intros H; now destruct H|].
  destruct (dropWhile (notc "(") s) as [|c r] eqn:Ec; [intros H; now destruct H|].
  pose proof (dropWhile_head _ _ _ _ Ec) as Hc. apply notc_false in Hc.
  pose proof (takeWhile_dropWhile (notc ")") r) as Hr.
  pose proof (takeWhile_all_true (notc ")") r) as Hsc.
  destruct (dropWhile (notc ")") r) as [|c' r'] eqn:Ec';
    [intros H; destruct (takeWhile _ r); now destruct H|].
  pose proof (dropWhile_head _ _ _ _ Ec') as Hc'. apply notc_false in Hc'.
  destruct (takeWhile (notc ")") r) as [|y sc]; [intros H; now destruct H|].
  intros _. exists (x :: p), r'. subst c c'. repeat split.
  - rewrite <- Hs, <- Hr. reflexivity.
  - discriminate.
  - now apply all_no_char.
  - now apply all_no_char.
Qed.

Lemma getCommitScope_sound_witness :
  getCommitScope (str "feat(auth): add JWT login") <> [] /\
  exists p rest,
    str "feat(auth): add JWT login" =
    p ++ str "(" ++ getCommitScope (str "feat(auth): add JWT login")
      ++ str ")" ++ rest /\
    p <> [] /\ ~ In (chr "(") p /\
    ~ In (chr ")") (getCommitScope (str "feat(auth): add JWT login")).
Proof.
  assert (H : getCommitScope (str "feat(auth): add JWT login") <> [])
    by discriminate.
  split; [exact H|].
  exact (getCommitScope_sound (str "feat(auth): add JWT login") H).
Defined.

Lemma dropWhile_nonblank (s : jsstring) :
  starts_nonblank s -> dropWhile isWhiteSpace s = s.
Proof.
  destruct s as [|c s]; simpl; [reflexivity|]. now intros ->.
Qed.

Lemma dropWhile_starts_nonblank (s : jsstring) :
  starts_nonblank (dropWhile isWhiteSpace s).
Proof.
  induction s as [|c s IH]; simpl; [exact I|].
  destruct (isWhiteSpace c) eqn:E; [assumption | exact E].
Qed.

(** X5: the description is what is left of the subject after a prefix is
    removed; when something is removed, the description does not begin
    with white space. *)
Theorem getCommitMessage_suffix (s : jsstring) :
  (exists pre, s = pre ++ getCommitMessage s) /\
  (getCommitMessage s <> s -> starts_nonblank (getCommitMessage s)).
Proof.
  rewrite getCommitMessage_spec. unfold message_of.
  pose proof (takeWhile_dropWhile (notc ":") s) as Hs.
  destruct (takeWhile (notc ":") s) as [|x p].
  - split; [now exists [] | intros H; now destruct H].
  - destruct (dropWhile (notc ":") s) as [|c r].
    + split; [now exists [] | intros H; now destruct H].
    + split.
      * exists ((x :: p) ++ c :: takeWhile isWhiteSpace r).
        rewrite <- app_assoc. simpl.
        rewrite takeWhile_dropWhile. now rewrite <- Hs.
      * intros _. apply dropWhile_starts_nonblank.
Qed.

(** X6: a conventional subject with a scope is taken apart into its three
    parts: for a type word [t], a non-empty scope [sc] without [)] and
    [:], and a description [d] that does not begin with white space, the
    subject [t(sc): d] has type [t], scope [sc] and description [d]. *)
Theorem classify_scoped_subject (h b t sc d : jsstring) :
  In t type_words ->
  sc <> [] -> ~ In (chr ")") sc -> ~ In (chr ":") sc ->
  starts_nonblank d ->
  let c := classify h (t ++ str "(" ++ sc ++ str "): " ++ d) b in
  type c = t /\ scope c = sc /\ message c = d.
Proof.
  intros Ht Hsc Hparen Hcolon Hd. cbn [classify type scope message].
  destruct (type_words_plain _ Ht) as (Hne & Htp & Htc).
  split; [|split].
  - rewrite getCommitType_spec. now rewrite type_words_first.
  - change (t ++ str "(" ++ sc ++ str "): " ++ d)
      with (t ++ str "(" ++ sc ++ str ")" ++ (str ": " ++ d)).
    rewrite getCommitScope_spec, scope_of_group; auto.
    now apply all_no_char.
  - rewrite getCommitMessage_spec. unfold message_of.
    replace (t ++ str "(" ++ sc ++ str "): " ++ d)
      with ((t ++ str "(" ++ sc ++ str ")") ++ chr ":" :: str " " ++ d)
      by (now rewrite <- !app_assoc).
    assert (Hall : Forall (fun c => notc ":" c = true)
                          (t ++ str "(" ++ sc ++ str ")")).
    { apply Forall_app. split; [assumption|].
      apply Forall_app. split; [repeat constructor|].
      apply Forall_app. split; [now apply no_char_all | repeat constructor]. }
    destruct (takeWhile_app_stop (notc ":") _ (chr ":") (str " " ++ d)
                Hall eq_refl) as [-> ->].
    destruct t as [|x t]; [contradiction|].
    change (str " " ++ d) with (32%N :: d).
    cbn [app dropWhile]. change (isWhiteSpace 32%N) with true. cbv iota.
    now apply dropWhile_nonblank.
Qed.

Lemma classify_scoped_subject_witness :
  In (str "feat") type_words /\
  str "auth" <> [] /\ ~ In (chr ")") (str "auth") /\
  ~ In (chr ":") (str "auth") /\ starts_nonblank (str "add JWT login") /\
  type feat_auth = str "feat" /\ scope feat_auth = str "auth" /\
  message feat_auth = str "add JWT login".
Proof.
  assert (H1 : In (str "feat") type_words) by (left; reflexivity).
  assert (H2 : str "auth" <> []) by discriminate.
  assert (H3 : ~ In (chr ")") (str "auth"))
    by (vm_compute; intuition discriminate).
  assert (H4 : ~ In (chr ":") (str "auth"))
    by (vm_compute; intuition discriminate).
  assert (H5 : starts_nonblank (str "add JWT login")) by reflexivity.
  repeat (split; [assumption|]).
  exact (classify_scoped_subject (str "abc1234") empty (str "feat")
           (str "auth") (str "add JWT login") H1 H2 H3 H4 H5).
Defined.

(** ** Reading the log *)

Lemma length_split (sep : char) (s : jsstring) :
  List.length (split sep s) = S (occurrences sep s).
Proof.
  unfold occurrences. induction s as [|c s IH]; [reflexivity|].
  cbn [split]. destruct (char_eqb c sep) eqn:E.
  - apply char_eqb_eq in E. subst c.
    rewrite count_occ_cons_eq by reflexivity. simpl. now rewrite IH.
  - assert (c <> sep) by (intros ->; now rewrite char_eqb_refl in E).
    rewrite count_occ_cons_neq by assumption.
    pose proof (split_nonempty sep s) as Hne.
    destruct (split sep s); [contradiction | exact IH].
Qed.

Lemma split_head_takeWhile (sep : char) (s : jsstring) :
  hd [] (split sep s) = takeWhile (fun c => negb (char_eqb c sep)) s.
Proof.
  induction s as [|c s IH]; [reflexivity|]. simpl.
  destruct (char_eqb c sep); simpl; [reflexivity|].
  pose proof (split_nonempty sep s) as Hne.
  destruct (split sep s); [contradiction|]. simpl in *. now f_equal.
Qed.

Lemma parseLine_ok (line : jsstring) :
  2 <= occurrences (chr "|") line -> exists c, parseLine line = Ok c.
Proof.
  unfold parseLine. pose proof (length_split (chr "|") line) as H.
  destruct (split (chr "|") line) as [|h [|s [|b r]]];
    cbn [List.length] in H; intros Hle; try (exfalso; lia).
  eexists; reflexivity.
Qed.

Lemma parseLine_throws (line : jsstring) :
  occurrences (chr "|") line < 2 -> exists e, parseLine line = Throw e.
Proof.
  unfold parseLine. pose proof (length_split (chr "|") line) as H.
  destruct (split (chr "|") line) as [|h [|s [|b r]]];
    cbn [List.length] in H; intros Hlt; try (exfalso; lia);
    eexists; reflexivity.
Qed.

(** X7: a line of the log gives a commit exactly when it holds at least
    two [|] characters; with fewer, reading it throws. *)
Theorem parseLine_ok_iff (line : jsstring) :
  ((exists c, parseLine line = Ok c) <-> 2 <= occurrences (chr "|") line) /\
  ((exists e, parseLine line = Throw e) <-> occurrences (chr "|") line < 2).
Proof.
  split; split.
  - intros [c Hc].
    destruct (PeanoNat.Nat.le_gt_cases 2 (occurrences (chr "|") line)) as [H|H];
      [exact H|].
    destruct (parseLine_throws line H) as [e He]. congruence.
  - apply parseLine_ok.
  - intros [e He].
    destruct (PeanoNat.Nat.le_gt_cases 2 (occurrences (chr "|") line)) as [H|H];
      [|exact H].
    destruct (parseLine_ok line H) as [c Hc]. congruence.
  - apply parseLine_throws.
Qed.

Lemma mapM_throws {A B} (f : A -> Result B) (xs : list A) (x : A) :
  In x xs -> (exists e, f x = Throw e) -> exists e, mapM f xs = Throw e.
Proof.
  intros Hin [e He]. induction xs as [|y ys IH]; [contradiction|].
  simpl. destruct Hin as [-> | Hin].
  - rewrite He. now exists e.
  - destruct (f y); [|eexists; reflexivity].
    destruct (IH Hin) as [e' ->]. now exists e'.
Qed.

Lemma mapM_ok {A B} (f : A -> Result B) (xs : list A) :
  (forall x, In x xs -> exists y, f x = Ok y) ->
  exists ys, mapM f xs = Ok ys /\ Forall2 (fun x y => f x = Ok y) xs ys.
Proof.
  induction xs as [|x xs IH]; intros H.
  - exists []. split; [reflexivity | constructor].
  - destruct (H x (or_introl eq_refl)) as [y Hy].
    destruct IH as (ys & Hys & Hall); [intros z Hz; apply H; now right|].
    exists (y :: ys). simpl. rewrite Hy, Hys. split; [reflexivity|].
    now constructor.
Qed.

(** X8: one bad line spoils the whole log: when some line of the trimmed
    output holds fewer than two [|], no commit at all is returned; and
    unless the output is blank, a warning is printed. *)
Theorem getCommitsSinceLastTag_all_or_nothing (raw line : jsstring)
    (w : World) :
  In line (split 10%N (trim raw)) ->
  occurrences (chr "|") line < 2 ->
  fst (getCommitsSinceLastTag (Ok raw) w) = [] /\
  (trim raw <> [] ->
   exists e, snd (getCommitsSinceLastTag (Ok raw) w) =
             log (str "Warning: Could not get commits: " ++ e) yellow w).
Proof.
  intros Hin Hlt. unfold getCommitsSinceLastTag. cbn [bind].
  destruct (trim raw) as [|c out] eqn:E.
  - split; [reflexivity | intros H; now destruct H].
  - destruct (mapM_throws parseLine _ line Hin (parseLine_throws line Hlt))
      as [e ->].
    split; [reflexivity | intros _; now exists e].
Qed.

Lemma getCommitsSinceLastTag_all_or_nothing_witness :
  In (str "second line of the body") (split 10%N (trim two_line_log)) /\
  occurrences (chr "|") (str "second line of the body") < 2 /\
  fst (getCommitsSinceLastTag (Ok two_line_log) empty_world) = [] /\
  List.length (console (snd (getCommitsSinceLastTag (Ok two_line_log)
                                                    empty_world))) = 1.
Proof.
  assert (H1 : In (str "second line of the body")
                  (split 10%N (trim two_line_log)))
    by (right; left; reflexivity).
  assert (H2 : occurrences (chr "|") (str "second line of the body") < 2)
    by (vm_compute; lia).
  split; [exact H1 | split; [exact H2|]].
  destruct (getCommitsSinceLastTag_all_or_nothing two_line_log _ empty_world
              H1 H2) as [Hf Hs].
  split; [exact Hf|].
  destruct Hs as [e ->]; [discriminate | reflexivity].
Defined.

(** X9: when every line of the trimmed output holds at least two [|], the
    log is read without warning into one commit per line, in order, each
    with the first seven characters of the line's first field as hash. *)
Theorem getCommitsSinceLastTag_line_by_line (raw : jsstring) (w : World) :
  (forall line, In line (split 10%N (trim raw)) ->
                2 <= occurrences (chr "|") line) ->
  snd (getCommitsSinceLastTag (Ok raw) w) = w /\
  Forall2 (fun line c =>
             parseLine line = Ok c /\
             hash c = firstn 7 (takeWhile (notc "|") line))
          (split 10%N (trim raw)) (fst (getCommitsSinceLastTag (Ok raw) w)).
Proof.
  intros H. unfold getCommitsSinceLastTag. cbn [bind].
  destruct (trim raw) as [|c out] eqn:E.
  - specialize (H [] (or_introl eq_refl)). vm_compute in H. lia.
  - destruct (mapM_ok parseLine (split 10%N (c :: out))) as (cs & -> & Hall).
    { intros line Hl. now apply parseLine_ok, H. }
    split; [reflexivity|]. cbn [fst].
    eapply Forall2_impl; [|exact Hall]. intros line k Hk.
    split; [exact Hk|].
    unfold parseLine in Hk.
    pose proof (split_head_takeWhile (chr "|") line) as Hh.
    destruct (split (chr "|") line) as [|h [|s [|b r]]]; try discriminate.
    injection Hk as <-. cbn [classify hash]. unfold substring0.
    simpl in Hh. now rewrite Hh.
Qed.

Lemma getCommitsSinceLastTag_line_by_line_witness :
  (forall line, In line (split 10%N (trim (one_feat_log ++ nl ++ one_fix_log)))
                -> 2 <= occurrences (chr "|") line) /\
  map hash (fst (getCommitsSinceLastTag
                   (Ok (one_feat_log ++ nl ++ one_fix_log)) empty_world))
  = [str "abc1234"; str "9999999"].
Proof.
  assert (H : forall line,
            In line (split 10%N (trim (one_feat_log ++ nl ++ one_fix_log))) ->
            2 <= occurrences (chr "|") line).
  { intros line [<- | [<- | []]]; vm_compute; lia. }
  split; [exact H|].
  destruct (getCommitsSinceLastTag_line_by_line
              (one_feat_log ++ nl ++ one_fix_log) empty_world H) as [_ Hall].
  clear Hall. reflexivity.
Defined.

(** ** Headings, lines and sections *)

(** X10: a category heading is listed exactly when some commit of the
    sequence falls into that category; no heading is listed for an empty
    category, and none at all for the empty sequence. *)
Theorem groupCommits_headings (commits : list Commit) (key : jsstring) :
  In key (map fst (groupCommits commits)) <->
  exists c, In c commits /\ bucket c = key.
Proof.
  rewrite in_map_iff. split.
  - intros ([k cs] & <- & H). simpl.
    apply In_groupCommits in H as (_ & -> & Hne).
    destruct (selected k commits) as [|c cs'] eqn:E; [contradiction|].
    exists c. assert (Hc : In c (selected k commits)) by (rewrite E; now left).
    apply In_selected in Hc as [Hin ->]. now split.
  - intros (c & Hin & <-).
    destruct (In_own_group c commits Hin) as [Hg _].
    now exists (bucket c, selected (bucket c) commits).
Qed.

Lemma concat_map_split {A} (g : A -> jsstring) (l : list A) (x : A) :
  In x l ->
  exists a b, List.concat (map g l) =
              List.concat (map g a) ++ g x ++ List.concat (map g b).
Proof.
  intros H. apply in_split in H as (a & b & ->).
  exists a, b. rewrite map_app, concat_app. reflexivity.
Qed.

(** X11: no commit is left out of the entries: the rendered line of every
    commit of the sequence stands in the text, below the heading of the
    commit's category. *)
Theorem generateEntries_lists_every_commit (commits : list Commit)
    (c : Commit) :
  In c commits ->
  exists pre mid post,
    generateEntries commits =
    pre ++ (str "### " ++ bucket c ++ nl ++ nl) ++ mid
        ++ (formatCommit c ++ nl) ++ post.
Proof.
  intros Hin. rewrite generateEntries_spec.
  destruct (In_own_group c commits Hin) as [Hg Hc].
  destruct (concat_map_split render_group _ _ Hg) as (g1 & g2 & ->).
  change (render_group (bucket c, selected (bucket c) commits))
    with (str "### " ++ bucket c ++ nl ++ nl
          ++ List.concat (map (fun k => formatCommit k ++ nl)
                              (selected (bucket c) commits)) ++ nl).
  destruct (concat_map_split (fun k => formatCommit k ++ nl) _ _ Hc)
    as (a & b & E).
  replace (List.concat (map (fun k => formatCommit k ++ nl)
                            (selected (bucket c) commits)))
    with (List.concat (map (fun k => formatCommit k ++ nl) a)
          ++ (formatCommit c ++ nl)
          ++ List.concat (map (fun k => formatCommit k ++ nl) b))
    by (symmetry; exact E).
  exists (List.concat (map render_group g1)),
         (List.concat (map (fun k => formatCommit k ++ nl) a)),
         (List.concat (map (fun k => formatCommit k ++ nl) b) ++ nl
          ++ List.concat (map render_group g2)).
  now rewrite <- !app_assoc.
Qed.

Lemma generateEntries_lists_every_commit_witness :
  In feat_breaking [feat_plain; feat_breaking] /\
  exists pre mid post,
    generateEntries [feat_plain; feat_breaking] =
    pre ++ (str "### Breaking Changes" ++ nl ++ nl) ++ mid
        ++ (formatCommit feat_breaking ++ nl) ++ post.
Proof.
  assert (H : In feat_breaking [feat_plain; feat_breaking])
    by (right; left; reflexivity).
  split; [exact H|].
  exact (generateEntries_lists_every_commit [feat_plain; feat_breaking]
           feat_breaking H).
Defined.

Lemma dropWhile_nil_iff (p : char -> bool) (s : jsstring) :
  dropWhile p s = [] <-> Forall (fun c => p c = true) s.
Proof.
  induction s as [|c s IH]; simpl.
  - split; [constructor | reflexivity].
  - destruct (p c) eqn:E.
    + rewrite IH. split; [now constructor | now inversion 1].
    + split; [discriminate | inversion 1; congruence].
Qed.

Lemma trim_nil_iff (s : jsstring) :
  trim s = [] <-> Forall (fun c => isWhiteSpace c = true) s.
Proof.
  rewrite <- dropWhile_nil_iff. unfold trim. split.
  - intros H. destruct (dropWhile isWhiteSpace s) as [|c r] eqn:E;
      [reflexivity|].
    pose proof (dropWhile_head _ _ _ _ E) as Hc.
    apply (f_equal (@rev char)) in H. rewrite rev_involutive in H.
    cbn [rev] in H. now apply dropWhile_app_last in H.
  - intros ->. reflexivity.
Qed.

(** X12: the release section is the empty string exactly when the entries
    consist of white space only; otherwise it is the version header, a
    blank line, the entries and a line break. *)
Theorem generateReleaseSection_blank_iff (this : Generator) (now : Date)
    (entries : jsstring) :
  (generateReleaseSection this now entries = [] <->
   Forall (fun c => isWhiteSpace c = true) entries) /\
  (generateReleaseSection this now entries <> [] ->
   generateReleaseSection this now entries =
   str "## [" ++ toString (version this) ++ str "] - " ++ getDate now
     ++ nl ++ nl ++ entries ++ nl).
Proof.
  rewrite <- trim_nil_iff. unfold generateReleaseSection.
  destruct (trim entries) as [|c r].
  - split; [split; reflexivity | intros H; now destruct H].
  - split; [split; discriminate | reflexivity].
Qed.

Lemma forallb_seq (f : nat -> bool) (lo len n : nat) :
  forallb f (seq lo len) = true -> lo <= n < lo + len -> f n = true.
Proof.
  intros H Hn. rewrite forallb_forall in H. apply H. apply in_seq. lia.
Qed.

Lemma ofNat_four_digits (y : nat) :
  1000 <= y < 10 * 1000 -> List.length (ofNat y) = 4.
Proof.
  intros H. apply PeanoNat.Nat.eqb_eq.
  apply (forallb_seq (fun n => Nat.eqb (List.length (ofNat n)) 4) 1000 (9 * 1000));
    [vm_compute; reflexivity | lia].
Qed.

Lemma padStart0_two_digits (n : nat) :
  n <= 99 -> List.length (padStart0 2 (ofNat n)) = 2.
Proof.
  intros H. apply PeanoNat.Nat.eqb_eq.
  apply (forallb_seq
           (fun n => Nat.eqb (List.length (padStart0 2 (ofNat n))) 2) 0 100);
    [vm_compute; reflexivity | lia].
Qed.

(** X13: for a four-digit year the date is ten characters long, in the
    form [YYYY-MM-DD]: the month is counted from 1 and, like the day,
    padded with a zero to two digits. *)
Theorem getDate_shape (now : Date) :
  1000 <= getFullYear now < 10 * 1000 ->
  getMonth now <= 11 ->
  getDate_ now <= 31 ->
  exists y m d,
    getDate now = y ++ str "-" ++ m ++ str "-" ++ d /\
    y = ofNat (getFullYear now) /\ List.length y = 4 /\
    m = padStart0 2 (ofNat (getMonth now + 1)) /\ List.length m = 2 /\
    d = padStart0 2 (ofNat (getDate_ now)) /\ List.length d = 2 /\
    List.length (getDate now) = 10.
Proof.
  intros Hy Hm Hd.
  pose proof (ofNat_four_digits _ Hy) as Ly.
  assert (Lm : List.length (padStart0 2 (ofNat (getMonth now + 1))) = 2)
    by (apply padStart0_two_digits; lia).
  assert (Ld : List.length (padStart0 2 (ofNat (getDate_ now))) = 2)
    by (apply padStart0_two_digits; lia).
  eexists. eexists. eexists.
  split; [reflexivity|]. repeat (split; [reflexivity || assumption|]).
  unfold getDate. rewrite !length_app, Ly, Lm, Ld. reflexivity.
Qed.

Lemma getDate_shape_witness :
  1000 <= getFullYear feb_1 < 10 * 1000 /\
  getMonth feb_1 <= 11 /\
  getDate_ feb_1 <= 31 /\
  getDate feb_1 = str "2024-02-01" /\
  List.length (getDate feb_1) = 10.
Proof.
  assert (H1 : 1000 <= getFullYear feb_1 < 10 * 1000) by (simpl; lia).
  assert (H2 : getMonth feb_1 <= 11) by (simpl; lia).
  assert (H3 : getDate_ feb_1 <= 31) by (simpl; lia).
  repeat (split; [assumption|]).
  destruct (getDate_shape feb_1 H1 H2 H3) as (y & m & d & _ & H).
  split; [reflexivity|]. apply H.
Defined.

(** ** What a run does to the files *)

Lemma getCommitsSinceLastTag_fst (gitlog : Result jsstring) (w w' : World) :
  fst (getCommitsSinceLastTag gitlog w) = fst (getCommitsSinceLastTag gitlog w').
Proof.
  unfold getCommitsSinceLastTag. now destruct (bind gitlog _).
Qed.

Lemma crashed_console_log (line : jsstring) (w : World) :
  crashed (console_log line w) = crashed w.
Proof. reflexivity. Qed.

Lemma crashed_log (message : jsstring) (color : Color) (w : World) :
  crashed (log message color w) = crashed w.
Proof. reflexivity. Qed.

Lemma unwritable_log (message : jsstring) (color : Color) (w : World) :
  unwritable (log message color w) = unwritable w.
Proof. reflexivity. Qed.

Lemma files_log (message : jsstring) (color : Color) (w : World) :
  files (log message color w) = files w.
Proof. reflexivity. Qed.

(** The text that a run assembles for the changelog. *)
Lemma generate_effect (this : Generator) (gitlog : Result jsstring)
    (now : Date) (w : World) :
  let commits := fst (getCommitsSinceLastTag gitlog w) in
  let content :=
    combine (generateReleaseSection this now (generateEntries commits))
            (content_at (changelogPath this) w) in
  (commits = [] \/ dryRun this = true ->
   files (generate this gitlog now w) = files w /\
   writes (generate this gitlog now w) = writes w /\
   crashed (generate this gitlog now w) = crashed w) /\
  (commits <> [] -> dryRun this = true ->
   exists pre, console (generate this gitlog now w) = pre ++ [content]) /\
  (commits <> [] -> dryRun this = false ->
   unwritable w (changelogPath this) = None ->
   (forall p, files (generate this gitlog now w) p =
              if JS.eqb p (changelogPath this) then Some content
              else files w p) /\
   writes (generate this gitlog now w) =
   writes w ++ [(changelogPath this, content)] /\
   crashed (generate this gitlog now w) = crashed w) /\
  (commits <> [] -> dryRun this = false ->
   forall e, unwritable w (changelogPath this) = Some e ->
   files (generate this gitlog now w) = files w /\
   writes (generate this gitlog now w) = writes w /\
   crashed (generate this gitlog now w) = Some e).
Proof.
  unfold generate, getCommitsSinceLastTag, content_at.
  destruct (bind gitlog _) as [[|c cs]|e]; cbn [fst].
  - split; [intros _; repeat split; reflexivity|].
    split; [intros Hne; now destruct Hne|].
    split; intros Hne; now destruct Hne.
  - unfold writeChangelog, readExistingChangelog, readFileSync.
    destruct (dryRun this).
    + rewrite crashed_console_log, !crashed_log, !files_log.
      assert (E : forall A (a : A),
                match crashed w with Some _ => a | None => a end = a)
        by (intros A a; now destruct (crashed w)).
      rewrite E.
      split; [intros _; repeat split; reflexivity|].
      split; [|split; intros _ Hd; discriminate]. intros _ _.
      destruct (files w (changelogPath this)); eexists; reflexivity.
    + unfold writeFileSync. rewrite !unwritable_log, !files_log.
      split; [intros [Hc | Hd]; discriminate|].
      split; [intros _ Hd; discriminate|].
      split.
      * intros _ _ Hu. rewrite Hu. cbn [crashed]. rewrite !crashed_log.
        destruct (crashed w) eqn:Ec;
          destruct (files w (changelogPath this));
          cbn [files writes crashed log console_log];
          rewrite ?Ec; repeat split; reflexivity.
      * intros _ _ e Hu. rewrite Hu. cbn [crashed uncaught].
        repeat split; reflexivity.
  - split; [intros _; repeat split; reflexivity|].
    split; [intros Hne; now destruct Hne|].
    split; intros Hne; now destruct Hne.
Qed.

Lemma generate_unwritable (this : Generator) (gitlog : Result jsstring)
    (now : Date) (w : World) :
  unwritable (generate this gitlog now w) = unwritable w.
Proof.
  unfold generate, getCommitsSinceLastTag.
  destruct (bind gitlog _) as [[|c cs]|e]; try reflexivity.
  unfold writeChangelog.
  destruct (dryRun this).
  - now destruct (crashed _).
  - unfold writeFileSync. rewrite !unwritable_log.
    destruct (unwritable w (changelogPath this)); [reflexivity|].
    now destruct (crashed _).
Qed.

(** X14: a dry run never touches the files, whatever the log holds; when
    there are commits, the last thing it prints is the text it would have
    written. *)
Theorem generate_dry_run (this : Generator) (gitlog : Result jsstring)
    (now : Date) (w : World) :
  dryRun this = true ->
  files (generate this gitlog now w) = files w /\
  writes (generate this gitlog now w) = writes w /\
  (fst (getCommitsSinceLastTag gitlog w) <> [] ->
   exists pre,
     console (generate this gitlog now w) =
     pre ++ [combine (generateReleaseSection this now
                        (generateEntries
                           (fst (getCommitsSinceLastTag gitlog w))))
                     (content_at (changelogPath this) w)]).
Proof.
  intros Hd. destruct (generate_effect this gitlog now w) as (H1 & H2 & _).
  destruct (H1 (or_intror Hd)) as (Hf & Hw & _).
  split; [exact Hf | split; [exact Hw|]]. intros Hne. now apply H2.
Qed.

Lemma generate_dry_run_witness :
  dryRun preview_1_1_0 = true /\
  files (generate preview_1_1_0 (Ok one_feat_log) jan_15 world_with_changelog)
        (str "CHANGELOG.md") = Some old_changelog /\
  writes (generate preview_1_1_0 (Ok one_feat_log) jan_15 world_with_changelog)
  = [].
Proof.
  assert (H : dryRun preview_1_1_0 = true) by reflexivity.
  split; [exact H|].
  destruct (generate_dry_run preview_1_1_0 (Ok one_feat_log) jan_15
              world_with_changelog H) as (Hf & Hw & _).
  rewrite Hf, Hw. split; reflexivity.
Defined.






(** X17: two releases in a row, starting without a changelog, on a path
    that can be written: the first run writes the ["# Changelog"] header
    and its section; the second run finds the header and puts its own
    section in front of that text. *)
Theorem generate_twice (this1 this2 : Generator)
    (gitlog1 gitlog2 : Result jsstring) (now1 now2 : Date) (w : World) :
  dryRun this1 = false -> dryRun this2 = false ->
  changelogPath this2 = changelogPath this1 ->
  files w (changelogPath this1) = None ->
  unwritable w (changelogPath this1) = None ->
  fst (getCommitsSinceLastTag gitlog1 w) <> [] ->
  fst (getCommitsSinceLastTag gitlog2 w) <> [] ->
  files (generate this2 gitlog2 now2 (generate this1 gitlog1 now1 w))
        (changelogPath this1)
  = Some (generateReleaseSection this2 now2
            (generateEntries (fst (getCommitsSinceLastTag gitlog2 w)))
          ++ str "# Changelog" ++ nl ++ nl
          ++ generateReleaseSection this1 now1
               (generateEntries (fst (getCommitsSinceLastTag gitlog1 w)))).
Proof.
  intros Hd1 Hd2 Hp Hnone Hu Hc1 Hc2.
  set (w1 := generate this1 gitlog1 now1 w).
  destruct (generate_effect this1 gitlog1 now1 w) as (_ & _ & H1 & _).
  destruct (H1 Hc1 Hd1 Hu) as [Hf1 _]. fold w1 in Hf1.
  destruct (generate_effect this2 gitlog2 now2 w1) as (_ & _ & H2 & _).
  rewrite (getCommitsSinceLastTag_fst gitlog2 w1 w) in H2.
  assert (Hu1 : unwritable w1 (changelogPath this2) = None).
  { unfold w1. rewrite generate_unwritable, Hp. exact Hu. }
  destruct (H2 Hc2 Hd2 Hu1) as [Hf2 _].
  rewrite <- Hp at 1. rewrite Hf2, eqb_refl. f_equal.
  unfold content_at. rewrite Hp, Hf1, eqb_refl.
  unfold content_at. rewrite Hnone.
  unfold combine at 2. cbn [startsWith str list_ascii_of_string map empty].
  unfold combine.
  rewrite <- !app_assoc. cbn [app startsWith str list_ascii_of_string map].
  rewrite !char_eqb_refl. cbn [andb]. rewrite app_nil_r. reflexivity.
Qed.

Lemma generate_twice_witness :
  dryRun release_1_1_0 = false /\ dryRun release_1_2_0 = false /\
  changelogPath release_1_2_0 = changelogPath release_1_1_0 /\
  files empty_world (changelogPath release_1_1_0) = None /\
  unwritable empty_world (changelogPath release_1_1_0) = None /\
  fst (getCommitsSinceLastTag (Ok one_feat_log) empty_world) <> [] /\
  fst (getCommitsSinceLastTag (Ok one_fix_log) empty_world) <> [] /\
  files (generate release_1_2_0 (Ok one_fix_log) feb_1
           (generate release_1_1_0 (Ok one_feat_log) jan_15 empty_world))
        (str "CHANGELOG.md")
  = Some (str "## [1.2.0] - 2024-02-01" ++ nl ++ nl
          ++ str "### Bug Fixes" ++ nl ++ nl
          ++ str "- patch leak ([9999999](../../commit/9999999))"
          ++ nl ++ nl ++ nl
          ++ str "# Changelog" ++ nl ++ nl
          ++ str "## [1.1.0] - 2024-01-15" ++ nl ++ nl
          ++ str "### Features" ++ nl ++ nl
          ++ str "- add x ([abc1234](../../commit/abc1234))"
          ++ nl ++ nl ++ nl).
Proof.
  assert (H1 : dryRun release_1_1_0 = false) by reflexivity.
  assert (H2 : dryRun release_1_2_0 = false) by reflexivity.
  assert (H3 : changelogPath release_1_2_0 = changelogPath release_1_1_0)
    by reflexivity.
  assert (H4 : files empty_world (changelogPath release_1_1_0) = None)
    by reflexivity.
  assert (H5 : unwritable empty_world (changelogPath release_1_1_0) = None)
    by reflexivity.
  assert (H6 : fst (getCommitsSinceLastTag (Ok one_feat_log) empty_world)
               <> []) by discriminate.
  assert (H7 : fst (getCommitsSinceLastTag (Ok one_fix_log) empty_world)
               <> []) by discriminate.
  repeat (split; [assumption|]).
  change (str "CHANGELOG.md") with (changelogPath release_1_1_0).
  rewrite (generate_twice release_1_1_0 release_1_2_0 (Ok one_feat_log)
             (Ok one_fix_log) jan_15 feb_1 empty_world
             H1 H2 H3 H4 H5 H6 H7).
  reflexivity.
Defined.

(** ** Options and construction *)

(** X18: constructing the generator never fails, whatever the manifest.  A
    non-empty [version] option is taken as it is, without consulting the
    manifest; otherwise the version is what [detectVersion] finds.  The
    path defaults to [CHANGELOG.md]. *)
Theorem new_ChangelogGenerator_total (Pkg : Type)
    (JSON_parse : jsstring -> Result Pkg) (get_version : Pkg -> Result value)
    (options : Options) (w : World) :
  exists g,
    new_ChangelogGenerator Pkg JSON_parse get_version options w = Ok g /\
    dryRun g = opt_dryRun options /\
    (truthy (opt_version options) = true -> version g = opt_version options) /\
    (truthy (opt_version options) = false ->
     detectVersion Pkg JSON_parse get_version w = Ok (version g)) /\
    changelogPath g =
    (if truthy (opt_changelogPath options)
     then toString (opt_changelogPath options) else str "CHANGELOG.md").
Proof.
  unfold new_ChangelogGenerator, or_else.
  destruct (detectVersion_never_throws Pkg JSON_parse get_version w) as [v Hv].
  destruct (truthy (opt_version options)) eqn:Et;
    [|rewrite Hv]; cbn [bind];
    destruct (truthy (opt_changelogPath options)); cbn [bind];
    eexists; (split; [reflexivity|]); cbn [dryRun version changelogPath];
    rewrite orb_false_r; repeat split; congruence.
Qed.

(** X19: the version option is the word after the first [--version]; it
    is undefined when [--version] is the last word or does not occur. *)
Theorem version_arg_first (pre rest : list jsstring) (v : jsstring) :
  ~ In (str "--version") pre ->
  version_arg (pre ++ str "--version" :: v :: rest) = vstr v /\
  version_arg (pre ++ [str "--version"]) = undefined /\
  version_arg pre = undefined.
Proof.
  intros H. induction pre as [|a pre IH].
  - repeat split; reflexivity.
  - assert (Ha : JS.eqb a (str "--version") = false).
    { apply eqb_neq. intros ->. apply H. now left. }
    destruct IH as (IH1 & IH2 & IH3); [intros Hin; apply H; now right|].
    cbn [app version_arg]. rewrite Ha. repeat split; assumption.
Qed.

Lemma version_arg_first_witness :
  ~ In (str "--version") [str "--dry-run"] /\
  version_arg [str "--dry-run"; str "--version"; str "2.0.0";
               str "--version"; str "3.0.0"] = vstr (str "2.0.0") /\
  version_arg [str "--dry-run"; str "--version"] = undefined.
Proof.
  assert (H : ~ In (str "--version") [str "--dry-run"])
    by (intros [E | []]; discriminate E).
  split; [exact H|].
  destruct (version_arg_first [str "--dry-run"]
              [str "--version"; str "3.0.0"] (str "2.0.0") H)
    as (H1 & H2 & _).
  split; [exact H1 | exact H2].
Defined.

Lemma existsb_eqb_In (x : jsstring) (l : list jsstring) :
  existsb (JS.eqb x) l = true <-> In x l.
Proof.
  rewrite existsb_exists. split.
  - intros (y & Hy & E). apply eqb_eq in E. now subst.
  - intros H. exists x. split; [assumption | apply eqb_refl].
Qed.

Lemma main_generator (Pkg : Type)
    (JSON_parse : jsstring -> Result Pkg) (get_version : Pkg -> Result value)
    (args : list jsstring) (w : World) :
  exists g,
    new_ChangelogGenerator Pkg JSON_parse get_version (main_options args) w
    = Ok g /\
    changelogPath g = str "CHANGELOG.md" /\
    (dryRun g = true <-> In (str "--dry-run") args).
Proof.
  unfold new_ChangelogGenerator, or_else.
  destruct (detectVersion_never_throws Pkg JSON_parse get_version w) as [v Hv].
  destruct (truthy (opt_version (main_options args))); [|rewrite Hv];
    cbn [bind main_options opt_changelogPath opt_dryRun truthy];
    eexists; (split; [reflexivity|]); cbn [changelogPath dryRun];
    rewrite orb_false_r; (split; [reflexivity | apply existsb_eqb_In]).
Qed.

(** X20: started in a world where nothing has crashed, the program ends
    normally whenever it does not write: with [--dry-run] among its
    arguments, or when the log gives no commits; every file is then left
    as it was, whatever the manifest holds.  Otherwise it ends normally
    exactly when [CHANGELOG.md] can be written, and the only exception
    that escapes is the one thrown by that write. *)
Theorem main_outcome (Pkg : Type)
    (JSON_parse : jsstring -> Result Pkg) (get_version : Pkg -> Result value)
    (args : list jsstring) (gitlog : Result jsstring) (now : Date)
    (w : World) :
  crashed w = None ->
  let run := main Pkg JSON_parse get_version args gitlog now w in
  (In (str "--dry-run") args \/ fst (getCommitsSinceLastTag gitlog w) = [] ->
   exists w', run = Ok w' /\ files w' = files w /\ writes w' = writes w) /\
  (~ In (str "--dry-run") args ->
   fst (getCommitsSinceLastTag gitlog w) <> [] ->
   (unwritable w (str "CHANGELOG.md") = None ->
    exists w', run = Ok w' /\ List.length (writes w') = S (List.length (writes w)))
   /\
   (forall e, unwritable w (str "CHANGELOG.md") = Some e -> run = Throw e)).
Proof.
  intros Hc run. unfold run, main.
  destruct (main_generator Pkg JSON_parse get_version args w)
    as (g & -> & Hp & Hdry).
  cbn [bind].
  destruct (generate_effect g gitlog now w) as (H1 & _ & H3 & H4).
  rewrite Hp in H3, H4. split.
  - intros H.
    destruct H1 as (Hf & Hw & Hcr).
    { destruct H as [H | H]; [right; now apply Hdry | now left]. }
    rewrite Hcr, Hc. eexists. split; [reflexivity | split; assumption].
  - intros Hnd Hne.
    assert (Hd : dryRun g = false).
    { destruct (dryRun g) eqn:E; [|reflexivity].
      destruct Hnd. now apply Hdry. }
    split.
    + intros Hu. destruct (H3 Hne Hd Hu) as (_ & Hw & Hcr).
      rewrite Hcr, Hc. eexists. split; [reflexivity|].
      rewrite Hw, length_app. simpl. lia.
    + intros e Hu. destruct (H4 Hne Hd e Hu) as (_ & _ & Hcr).
      now rewrite Hcr.
Qed.

Lemma main_outcome_witness :
  crashed world_with_directory = None /\
  main unit parse_fails no_version [str "--dry-run"] (Ok one_feat_log) jan_15
       world_with_directory <> Throw (str "EISDIR: illegal operation on a directory")
  /\
  main unit parse_fails no_version [] (Ok one_feat_log) jan_15
       world_with_directory
  = Throw (str "EISDIR: illegal operation on a directory").
Proof.
  assert (Hc : crashed world_with_directory = None) by reflexivity.
  split; [exact Hc|].
  destruct (main_outcome unit parse_fails no_version [str "--dry-run"]
              (Ok one_feat_log) jan_15 world_with_directory Hc) as [Hdry _].
  destruct Hdry as (w' & -> & _); [left; left; reflexivity|].
  split; [discriminate|].
  destruct (main_outcome unit parse_fails no_version []
              (Ok one_feat_log) jan_15 world_with_directory Hc) as [_ Hreal].
  destruct Hreal as [_ Hfail];
    [intros [] | discriminate |].
  apply Hfail. reflexivity.
Defined.

(** ** More on release-type detection *)





(** ** The arguments of [prepare-release.sh] *)

Import PrepareRelease.

Lemma parse_args_app_bounded (n : nat) :
  forall pre post st st',
    List.length pre <= n ->
    parse_args pre st = Ok st' ->
    parse_args (pre ++ post) st = parse_args post st'.
Proof.
  induction n as [|n IH]; intros pre post st st' Hlen H.
  - destruct pre; [|simpl in Hlen; lia]. simpl in H. now injection H as ->.
  - destruct pre as [|a rest]; [simpl in H; now injection H as ->|].
    simpl in Hlen. cbn [app parse_args] in *.
    destruct (JS.eqb a (str "--auto")).
    + apply IH; [lia | exact H].
    + destruct (JS.eqb a (str "--type")); [|discriminate H].
      destruct rest as [|v rest']; [discriminate H|].
      cbn [app]. apply IH; [simpl in Hlen; lia | exact H].
Qed.

Lemma parse_args_app (pre post : list jsstring) (st st' : Settings) :
  parse_args pre st = Ok st' ->
  parse_args (pre ++ post) st = parse_args post st'.
Proof.
  apply (parse_args_app_bounded (List.length pre)). lia.
Qed.

(** X24: after any words that were parsed without error, [--auto] turns
    detection on and keeps the type; [--type v] sets the type to [v],
    whatever [v] is, so that the last [--type] wins; [--type] as the last
    word stops the script, as does any other word, which is reported as an
    unknown option. *)
Theorem parse_args_next (pre : list jsstring) (st st' : Settings)
    (a v : jsstring) :
  parse_args pre st = Ok st' ->
  parse_args (pre ++ [str "--auto"]) st
  = Ok {| AUTO_DETECT := true; RELEASE_TYPE := RELEASE_TYPE st' |} /\
  parse_args (pre ++ [str "--type"; v]) st
  = Ok {| AUTO_DETECT := AUTO_DETECT st'; RELEASE_TYPE := v |} /\
  parse_args (pre ++ [str "--type"]) st = Throw (str "$2: unbound variable") /\
  (a <> str "--auto" -> a <> str "--type" ->
   forall rest, parse_args (pre ++ a :: rest) st
                = Throw (str "Unknown option: " ++ a)).
Proof.
  intros H. rewrite !(parse_args_app pre _ st st' H).
  repeat split; try reflexivity.
  intros Ha Ht rest. rewrite (parse_args_app pre _ st st' H).
  cbn [parse_args]. apply eqb_neq in Ha, Ht. now rewrite Ha, Ht.
Qed.

Lemma parse_args_next_witness :
  parse_args [str "--type"; str "major"] defaults
  = Ok {| AUTO_DETECT := false; RELEASE_TYPE := str "major" |} /\
  parse_args [str "--type"; str "major"; str "--type"; str "banana"] defaults
  = Ok {| AUTO_DETECT := false; RELEASE_TYPE := str "banana" |} /\
  parse_args [str "--type"; str "major"; str "--verbose"] defaults
  = Throw (str "Unknown option: --verbose").
Proof.
  assert (H : parse_args [str "--type"; str "major"] defaults
              = Ok {| AUTO_DETECT := false; RELEASE_TYPE := str "major" |})
    by reflexivity.
  split; [exact H|].
  destruct (parse_args_next [str "--type"; str "major"] defaults _
              (str "--verbose") (str "banana") H) as (_ & H2 & _ & H4).
  split; [exact H2|].
  apply (H4 ltac:(discriminate) ltac:(discriminate) []).
Defined.

(** ** The validation pattern *)

Import Validate.

Lemma is_some_alt {A} (a b : option A) :
  is_some (match a with Some x => Some x | None => b end)
  = is_some a || is_some b.
Proof. now destruct a. Qed.

Lemma is_some_if {A} (c : bool) (a : option A) :
  is_some (if c then a else None) = c && is_some a.
Proof. now destruct c. Qed.

(** [.*] followed by [k]: some split of the text is accepted by [k]. *)
Lemma greedy_any_some {R} (s : jsstring) (k : jsstring -> option R) :
  is_some (greedy anychar s k) = true <->
  exists a b, s = a ++ b /\ is_some (k b) = true.
Proof.
  induction s as [|c s IH]; cbn [greedy anychar].
  - split.
    + intros H. now exists [], [].
    + intros (a & b & E & H). symmetry in E.
      apply app_eq_nil in E as [-> ->]. exact H.
  - rewrite is_some_alt, orb_true_iff, IH. split.
    + intros [(a & b & -> & H) | H].
      * now exists (c :: a), b.
      * now exists [], (c :: s).
    + intros (a & b & E & H). destruct a as [|x a]; simpl in E.
      * right. now rewrite E.
      * left. injection E as _ ->. now exists a, b.
Qed.

Lemma or_comm_iff_aux (A B C : Prop) :
  (A <-> C) -> (A \/ B <-> B \/ C).
Proof. tauto. Qed.

Lemma colon_tail_some {R} (s : jsstring) (caps : list jsstring)
    (k : jsstring -> list jsstring -> option R) :
  (forall t c, is_some (k t c) = true) ->
  is_some (run colon_tail s caps k) = true <->
  exists d, s = str ": " ++ d /\ d <> [].
Proof.
  intros Hk. unfold colon_tail. cbn [run]. split.
  - intros H.
    destruct s as [|x [|y [|z d]]]; cbn [is_some] in H; try discriminate H;
      destruct (char_eqb x (chr ":")) eqn:Ex; cbn [is_some] in H;
      try discriminate H;
      destruct (char_eqb y (chr " ")) eqn:Ey; cbn [is_some] in H;
      try discriminate H.
    apply char_eqb_eq in Ex, Ey. subst.
    exists (z :: d). split; [reflexivity | discriminate].
  - intros (d & -> & Hd). destruct d as [|z d]; [contradiction|].
    cbn [str list_ascii_of_string map app]. rewrite !char_eqb_refl.
    cbn [anychar]. apply greedy_any_some. exists d, []. split.
    + now rewrite app_nil_r.
    + apply Hk.
Qed.

(** The optional part, [(\(.+\))?], followed by the end of the pattern. *)
Lemma optional_group_some {R} (s : jsstring) (caps : list jsstring)
    (k : jsstring -> list jsstring -> option R) :
  (forall t c, is_some (k t c) = true) ->
  is_some
    (run (Seq (Alt (Grp (Seq (Chr (chr "(")) (Seq (Plus anychar) (Chr (chr ")")))))
                   Eps) colon_tail) s caps k) = true <->
  conventional_tail s.
Proof.
  intros Hk. cbn [run]. rewrite is_some_alt, orb_true_iff. unfold conventional_tail.
  fold colon_tail.
  rewrite (colon_tail_some s caps k Hk).
  apply or_comm_iff_aux.
  destruct s as [|x s].
  - split; [discriminate|]. intros (y & d & E & _). discriminate E.
  - destruct (char_eqb x (chr "(")) eqn:Ex.
    + apply char_eqb_eq in Ex. subst x.
      destruct s as [|y s].
      * split; [discriminate|]. intros (a & d & E & Ha & _).
        destruct a; [contradiction | discriminate E].
      * cbn [anychar]. rewrite greedy_any_some. split.
        -- intros (a & b & -> & H).
           destruct b as [|z b]; [discriminate H|].
           destruct (char_eqb z (chr ")")) eqn:Ez; [|discriminate H].
           apply char_eqb_eq in Ez. subst z.
           apply colon_tail_some in H as (d & -> & Hd); [|assumption].
           exists (y :: a), d. repeat split; [discriminate | assumption].
        -- intros (a & d & E & Ha & Hd).
           destruct a as [|y' a]; [contradiction|].
           cbn [str list_ascii_of_string map app] in E.
           injection E as -> ->.
           exists a, (chr ")" :: str ": " ++ d). split.
           ++ reflexivity.
           ++ rewrite char_eqb_refl. apply colon_tail_some; [assumption|].
              now exists d.
    + split; [discriminate|]. intros (a & d & E & _).
      cbn [str list_ascii_of_string map app] in E. injection E as -> _.
      now rewrite char_eqb_refl in Ex.
Qed.

Ltac pick_disjunct Hw Hk :=
  first [ split; [exact Hw | exact Hk]
        | left; split; [exact Hw | exact Hk]
        | right; pick_disjunct Hw Hk ].

(** The alternation of the type words: some word begins the text, and
    the continuation accepts what follows it. *)
Lemma type_re_some {R} (s : jsstring) (caps : list jsstring)
    (k : jsstring -> list jsstring -> option R) :
  is_some (run type_re s caps k) = true <->
  exists t, In t type_words /\ startsWith t s = true /\
            is_some (k (skipn (List.length t) s) (caps ++ [t])) = true.
Proof.
  unfold type_re, lit. cbn [run]. rewrite !run_word.
  rewrite !is_some_alt, !is_some_if. split.
  - intros H.
    repeat (apply orb_true_iff in H as [H | H];
            [ apply andb_true_iff in H as [Hw Hk];
              rewrite (startsWith_matched _ _ Hw) in Hk;
              eexists; split; [|split; [exact Hw | exact Hk]];
              unfold type_words; cbn [In]; tauto | ]).
    apply andb_true_iff in H as [Hw Hk].
    rewrite (startsWith_matched _ _ Hw) in Hk.
    eexists; split; [|split; [exact Hw | exact Hk]].
    unfold type_words; cbn [In]; tauto.
  - intros (t & Hin & Hw & Hk). unfold type_words in Hin. cbn [In] in Hin.
    rewrite !orb_true_iff, !andb_true_iff.
    repeat (destruct Hin as [<- | Hin];
            [ rewrite (startsWith_matched _ _ Hw); pick_disjunct Hw Hk | ]).
    contradiction.
Qed.

Lemma valid_run (s : jsstring) :
  valid s =
  is_some
    (run type_re s []
       (fun s1 c1 =>
          run (Seq (Alt (Grp (Seq (Chr (chr "(")) (Seq (Plus anychar)
                                                   (Chr (chr ")"))))) Eps)
                   colon_tail) s1 c1
              (fun rest caps =>
                 Some (firstn (List.length s - List.length rest) s, caps)))).
Proof. reflexivity. Qed.

Lemma valid_sound (s : jsstring) :
  valid s = true ->
  exists t rest, In t type_words /\ s = t ++ rest /\ conventional_tail rest.
Proof.
  rewrite valid_run, type_re_some. intros (t & Hin & Hw & Hk).
  apply optional_group_some in Hk; [|reflexivity].
  exists t, (skipn (List.length t) s).
  split; [exact Hin | split; [now apply startsWith_split | exact Hk]].
Qed.

Lemma valid_complete (t rest : jsstring) :
  In t type_words -> conventional_tail rest -> valid (t ++ rest) = true.
Proof.
  intros Hin Ht. rewrite valid_run, type_re_some.
  exists t. split; [exact Hin | split; [apply startsWith_app|]].
  rewrite skipn_prefix. apply optional_group_some; [reflexivity | exact Ht].
Qed.

(** X25: the validation pattern accepts a subject exactly when it is a
    type word, then optionally a non-empty text in parentheses, then a
    colon, one space, and at least one more character. *)
Theorem valid_iff (s : jsstring) :
  valid s = true <->
  exists t rest, In t type_words /\ s = t ++ rest /\ conventional_tail rest.
Proof.
  split; [apply valid_sound|].
  intros (t & rest & Hin & -> & Ht). now apply valid_complete.
Qed.

(** X26: a subject that the validation pattern accepts is never typed
    [other] by the changelog generator: its type is the type word it
    begins with. *)
Theorem valid_has_type (s : jsstring) :
  valid s = true ->
  In (getCommitType s) type_words /\
  startsWith (getCommitType s) s = true /\
  getCommitType s <> str "other".
Proof.
  intros H. apply valid_sound in H as (t & rest & Hin & -> & _).
  rewrite getCommitType_spec, (type_words_first t rest Hin).
  split; [exact Hin | split; [apply startsWith_app|]].
  intros E. rewrite E in Hin. unfold type_words in Hin. cbn [In] in Hin.
  repeat (destruct Hin as [Hin | Hin]; [discriminate Hin|]). contradiction.
Qed.

Lemma valid_has_type_witness :
  valid (str "feat(auth): add JWT login") = true /\
  getCommitType (str "feat(auth): add JWT login") = str "feat" /\
  valid (str "feat: ") = false /\
  valid (str "feat(): x") = false /\
  valid (str "fixup: y") = false.
Proof.
  assert (H : valid (str "feat(auth): add JWT login") = true) by reflexivity.
  split; [exact H|].
  destruct (valid_has_type (str "feat(auth): add JWT login") H) as (_ & _ & _).
  repeat split; reflexivity.
Defined.
